(** * nagibackup: a shallow embedding of [main.go] and its checked properties

    The program crawls a paginated gallery, resolves one image per
    detail page and saves it, with a buffered channel used as a counting
    semaphore.  The development has three layers:

    - [Dom]      the part of goquery the program calls (descendant
                 selectors, [Parent], [Attr]) over element trees;
    - [Nagi]     the sequential functions of [main.go] in a writer monad
                 with early process exit ([log.Fatal], [os.Exit]);
    - [Pipeline] the goroutines of [startDownloads] as a labelled
                 transition system over the shared semaphore, the [urls]
                 channel and the wait group. *)

From Stdlib Require Import String Ascii List ZArith Bool Arith Lia.
Import ListNotations.
Set Warnings "-register-all".
Open Scope list_scope.
Open Scope string_scope.

(** ** Strings: the [strings] functions the program uses *)

Module Str.

(** [strings.HasPrefix s p] *)
Definition HasPrefix (s p : string) : bool := String.prefix p s.

(** [strings.Contains s sub] *)
Fixpoint Contains (s sub : string) : bool :=
  String.prefix sub s ||
  match s with
  | EmptyString => false
  | String _ s' => Contains s' sub
  end.

Definition isSpace (c : ascii) : bool :=
  match nat_of_ascii c with
  | 32 | 9 | 10 | 12 | 13 => true
  | _ => false
  end.

(** Whitespace-separated fields of an attribute value, as the class
    selector reads them.  [cur] is the field being read. *)
Fixpoint fieldsFrom (cur : string) (s : string) : list string :=
  match s with
  | EmptyString => [cur]
  | String c s' =>
      if isSpace c then cur :: fieldsFrom EmptyString s'
      else fieldsFrom (cur ++ String c EmptyString) s'
  end.

Definition fields (s : string) : list string := fieldsFrom EmptyString s.

Definition inb (x : string) (l : list string) : bool :=
  existsb (String.eqb x) l.

End Str.

(** ** Documents and the goquery operations used *)

Module Dom.

(** An element of the parsed page.  Text and comment nodes are left out:
    no selector of the program and no [Attr] call observes them. *)
Inductive node : Type :=
| Element (tag : string) (attrs : list (string * string)) (children : list node).

Definition tagOf (n : node) : string := let 'Element t _ _ := n in t.
Definition attrsOf (n : node) : list (string * string) := let 'Element _ a _ := n in a.
Definition childrenOf (n : node) : list node := let 'Element _ _ c := n in c.

(** A parsed document: the children of the document node. *)
Definition document : Type := list node.

(** A node together with its chain of ancestors, nearest first.  This is
    what a goquery selection of one element gives access to. *)
Definition loc : Type := (node * list node)%type.

Definition selection : Type := list loc.

(** First attribute of the node with the given key, as goquery's
    [getAttributeValue] scans [n.Attr]. *)
Fixpoint lookupAttr (key : string) (attrs : list (string * string)) : option string :=
  match attrs with
  | [] => None
  | (k, v) :: rest => if String.eqb k key then Some v else lookupAttr key rest
  end.

(** [Selection.Attr]: the attribute of the first element of the
    selection; [None] stands for [ok = false]. *)
Definition Attr (s : selection) (key : string) : option string :=
  match s with
  | [] => None
  | (n, _) :: _ => lookupAttr key (attrsOf n)
  end.

(** [Selection.Parent] on a selection of one element. *)
Definition Parent (l : loc) : selection :=
  match snd l with
  | [] => []
  | p :: up => [(p, up)]
  end.

(** A compound selector: optional tag, id and class tests. *)
Record compound : Type := {
  selTag : option string;
  selId : option string;
  selClass : option string
}.

Definition tag (t : string) : compound :=
  {| selTag := Some t; selId := None; selClass := None |}.
Definition tagClass (t c : string) : compound :=
  {| selTag := Some t; selId := None; selClass := Some c |}.
Definition byId (i : string) : compound :=
  {| selTag := None; selId := Some i; selClass := None |}.

Definition hasAttrSuch (key : string) (p : string -> bool) (n : node) : bool :=
  existsb (fun kv => String.eqb (fst kv) key && p (snd kv)) (attrsOf n).

Definition matchCompound (c : compound) (n : node) : bool :=
  match selTag c with Some t => String.eqb (tagOf n) t | None => true end &&
  match selId c with Some i => hasAttrSuch "id" (String.eqb i) n | None => true end &&
  match selClass c with
  | Some k => hasAttrSuch "class" (fun v => Str.inb k (Str.fields v)) n
  | None => true
  end.

(** Some ancestor (with the ancestors above it) satisfies [f]. *)
Fixpoint anyAncestor (f : node -> list node -> bool) (up : list node) : bool :=
  match up with
  | [] => false
  | p :: up' => f p up' || anyAncestor f up'
  end.

(** A selector is a chain of compounds joined by the descendant
    combinator, given here innermost first: ["div table"] is
    [[tag "table"; tag "div"]]. *)
Fixpoint matches (rchain : list compound) (n : node) (up : list node) : bool :=
  match rchain with
  | [] => true
  | c :: outer =>
      matchCompound c n &&
      match outer with
      | [] => true
      | _ :: _ => anyAncestor (matches outer) up
      end
  end.

Definition selector : Type := list compound.

(** Proper descendants of [n] in document order, each with its ancestors. *)
Fixpoint descendants (up : list node) (n : node) : list loc :=
  match n with
  | Element _ _ cs =>
      (fix walk (l : list node) : list loc :=
         match l with
         | [] => []
         | c :: l' => (((c, n :: up) :: descendants (n :: up) c) ++ walk l')%list
         end) cs
  end.

(** All elements of the document in document order. *)
Definition allOf (d : document) : list loc :=
  flat_map (fun r => (r, []) :: descendants [] r) d.

Definition keep (q : selector) (ls : list loc) : selection :=
  filter (fun l => matches (rev q) (fst l) (snd l)) ls.

(** [doc.Find(q)] *)
Definition FindDoc (d : document) (q : selector) : selection := keep q (allOf d).

(** [s.Find(q)]: matching descendants of every element of [s].  The
    program only calls it on selections of at most one element. *)
Definition Find (s : selection) (q : selector) : selection :=
  flat_map (fun l => keep q (descendants (snd l) (fst l))) s.

End Dom.

(** ** The sequential functions of [main.go] *)

Module Nagi.
Import Dom.

(** [type conf struct] *)
Record conf : Type := {
  directory : string;
  url : string;
  verbose : bool;
  dryrun : bool;
  size : Z;
  parallel : Z;
  defaultDomain : string
}.

(** A Go call returning [(value, error)]. *)
Inductive result (A : Type) : Type :=
| Ok (a : A)
| Err (msg : string).
Arguments Ok {A} a.
Arguments Err {A} msg.

(** What the program does to the outside, in the order it does it. *)
Inductive event : Type :=
| Log (msg : string)              (* package log, one line on stderr *)
| Stderr (text : string)          (* fmt.Fprintf(os.Stderr, ...) and flag.PrintDefaults *)
| Stdout (text : string)          (* fmt.Printf *)
| Fetch (u : string)              (* goquery.NewDocument(u) *)
| MkdirAll (dir : string) (perm : Z)
| Create (path : string)          (* os.Create *)
| HttpGet (u : string)            (* http.Get *)
| Copy (path : string)            (* io.Copy(out, resp.Body) *)
| Sync (path : string)            (* out.Sync() *)
| CloseBody (u : string)          (* deferred resp.Body.Close() *)
| CloseFile (path : string)       (* deferred out.Close() *)
| Send (u : string)               (* urls <- u *)
| CloseChan                       (* close(urls) *)
| WgDone.                         (* deferred wg.Done() *)

(** How a call ends: it returns, or the process exits under it
    ([log.Fatal], [os.Exit]); deferred calls do not run on exit. *)
Inductive outcome (A : Type) : Type :=
| Ret (a : A)
| Exit (code : Z).
Arguments Ret {A} a.
Arguments Exit {A} code.

Definition M (A : Type) : Type := (list event * outcome A)%type.

Definition ret {A} (a : A) : M A := ([], Ret a).

Definition bind {A B} (m : M A) (f : A -> M B) : M B :=
  match m with
  | (es, Ret a) => let '(es', o) := f a in ((es ++ es')%list, o)
  | (es, Exit c) => (es, Exit c)
  end.

Notation "x <- m ;; k" := (bind m (fun x => k))
  (at level 61, m at next level, right associativity).
Notation "m ;; k" := (bind m (fun _ => k))
  (at level 61, right associativity).

Definition emit (e : event) : M unit := ([e], Ret tt).
Definition log_Print (msg : string) : M unit := emit (Log msg).
Definition log_Fatal {A} (msg : string) : M A := ([Log msg], Exit 1%Z).
Definition os_Exit {A} (code : Z) : M A := ([], Exit code).
Definition when (b : bool) (m : M unit) : M unit := if b then m else ret tt.

(** A [for ... range] loop, or [sel.Each(func(i, s) { body })], whose
    body assigns to a variable of type [S] declared outside it: the
    variable is threaded through the iterations. *)
Fixpoint forEach {X S} (l : list X) (body : S -> X -> M S) (s : S) : M S :=
  match l with
  | [] => ret s
  | x :: rest => s' <- body s x ;; forEach rest body s'
  end.

Definition Each {S} (sel : selection) (body : S -> loc -> M S) (s : S) : M S :=
  forEach sel body s.

(** The events of the walker before its deferred calls: log lines,
    fetches and sends. *)
Definition plain (e : event) : Prop :=
  match e with
  | Log _ | Fetch _ | Send _ => True
  | _ => False
  end.

(** The services the program calls: the network, the file system and
    package [path].  Each answer is a function of the call's arguments. *)
Record world : Type := {
  NewDocument : string -> result document;
  os_MkdirAll : string -> Z -> option string;
  os_Create : string -> option string;
  http_Get : string -> result string;
  io_Copy : string -> string -> option string;
  out_Sync : string -> option string;
  path_Join : string -> string -> string;
  path_Base : string -> string
}.

Section Functions.

Variable W : world.
Variable config : conf.

(** [func downloadImage(url string)] *)
Definition downloadImage (url : string) : M unit :=
  let destination := path_Join W (directory config) (path_Base W url) in
  when (verbose config) (log_Print ("Saving into " ++ destination)) ;;
  emit (Create destination) ;;
  match os_Create W destination with
  | Some err => log_Fatal err
  | None =>
      emit (HttpGet url) ;;
      match http_Get W url with
      | Err err =>
          log_Print ("Error in HTTP GET: " ++ err) ;;
          emit (CloseFile destination)
      | Ok body =>
          when (verbose config) (log_Print ("Downloading " ++ url)) ;;
          emit (Copy destination) ;;
          match io_Copy W destination body with
          | Some err => log_Print ("Error in image download: " ++ err)
          | None => ret tt
          end ;;
          emit (Sync destination) ;;
          match out_Sync W destination with
          | Some err => log_Print ("Error in image save: " ++ err)
          | None => ret tt
          end ;;
          emit (CloseBody url) ;;
          emit (CloseFile destination)
      end
  end.

(** The closure of [getActualImageUrl]; [image] is the named result.
    [Find] never returns nil, so the [el == nil] test is never taken. *)
Definition pickImage (image : string) (s : loc) : string :=
  let el := Find (Parent s) [tag "img"] in
  match Attr el "src" with
  | Some val => val
  | None => image
  end.

(** [func getActualImageUrl(url string) (image string)] *)
Definition getActualImageUrl (url : string) : M string :=
  emit (Fetch url) ;;
  match NewDocument W url with
  | Err err =>
      log_Print ("Error opening document for single image: " ++ err) ;;
      ret ""
  | Ok doc =>
      Each (FindDoc doc [tag "div"; tag "table"])
           (fun image s => ret (pickImage image s)) ""
  end.

Definition newline : string := String "010"%char "".

(** The body of the loop of [printImages]. *)
Definition printLine (url : string) : M unit :=
  emit (Stdout (url ++ newline)).

(** [func printImages(urls <-chan string, wg)], on the URLs the channel
    delivers before it is closed. *)
Definition printImages (urls : list string) : M unit :=
  forEach urls (fun _ url => printLine url) tt ;;
  emit WgDone.

(** The closure of [extractImageUrls]. *)
Definition sendHref (_ : unit) (s : loc) : M unit :=
  match Attr [s] "href" with
  | None => when (verbose config) (log_Fatal "Href not found")
  | Some val => emit (Send val)
  end.

(** [func extractImageUrls(urls chan<- string, doc)] *)
Definition extractImageUrls (doc : document) : M unit :=
  Each (FindDoc doc [tagClass "div" "imagelog"; tag "p"; tag "a"]) sendHref tt.

(** The closure of [extractNextUrl]; [nextUrl] is the named result. *)
Definition pickNext (nextUrl : string) (s : loc) : M string :=
  match Attr [s] "id" with
  | None => ret nextUrl
  | Some val =>
      if negb (Str.HasPrefix val "next_pager_") then ret nextUrl
      else
        pageNextUrl <-
          match Attr [s] "href" with
          | None => log_Print "Invalid pager link" ;; ret ""
          | Some h => ret h
          end ;;
        ret (defaultDomain config ++ pageNextUrl)
  end.

(** [func extractNextUrl(doc) (nextUrl string)] *)
Definition extractNextUrl (doc : document) : M string :=
  Each (FindDoc doc [tagClass "div" "pager"; tagClass "a" "navi"]) pickNext "".

(** One pass through the body of the loop of [fetchAllImageUrls]:
    [None] is [break], [Some next] the value assigned to [url]. *)
Definition iteration (url : string) : M (option string) :=
  when (verbose config) (log_Print ("Fetching links from " ++ url)) ;;
  emit (Fetch url) ;;
  match NewDocument W url with
  | Err err => log_Fatal ("Error opening document with single image: " ++ err)
  | Ok doc =>
      extractImageUrls doc ;;
      nextUrl <- extractNextUrl doc ;;
      if String.eqb url nextUrl then ret None else ret (Some nextUrl)
  end.

(** [for url != "" { ... }] followed for at most [fuel] iterations:
    [true] when the loop has been left, [false] when it is still running
    after that many iterations (the events so far are a prefix of what
    the loop does). *)
Fixpoint loop (fuel : nat) (url : string) : M bool :=
  if String.eqb url "" then ret true
  else
    match fuel with
    | O => ret false
    | S fuel' =>
        r <- iteration url ;;
        match r with
        | None => ret true
        | Some nextUrl => loop fuel' nextUrl
        end
    end.

(** [func fetchAllImageUrls(url, urls, wg)]: the loop, then the deferred
    [close(urls)] and [wg.Done()] once it has been left. *)
Definition fetchAllImageUrls (fuel : nat) (url : string) : M bool :=
  left <- loop fuel url ;;
  if left then emit CloseChan ;; emit WgDone ;; ret true
  else ret false.

(** The closure of [downloadImages] up to the semaphore: the href to
    download from, or [None] when the anchor is passed over. *)
Definition wanted (s : loc) : M (option string) :=
  match Attr [s] "href" with
  | None =>
      when (verbose config) (log_Print "Href not found, skipping") ;;
      ret None
  | Some val =>
      if negb (Str.Contains val "size=o") then ret None else ret (Some val)
  end.

(** The anchors [downloadImages] visits on the page of one item, or the
    error of [goquery.NewDocument]. *)
Definition openItem (url : string) : M (option selection) :=
  emit (Fetch url) ;;
  match NewDocument W url with
  | Err err =>
      log_Print ("Error opening document with all images: " ++ err) ;;
      ret None
  | Ok doc =>
      ret (Some (FindDoc doc [byId "zoom"; tag "ul"; tag "li"; tag "a"]))
  end.

(** The value a call returns, when it returns. *)
Definition returned {A} (m : M A) : option A :=
  match snd m with
  | Ret a => Some a
  | Exit _ => None
  end.

(** The call returned [a], or it ended the process by the [log.Fatal]
    that only [-verbose] reaches. *)
Definition settled {A} (o : outcome A) (a : A) : Prop :=
  o = Ret a \/ (o = Exit 1%Z /\ verbose config = true).

(** The next-page URL the page at [u] resolves to, when it can be fetched. *)
Definition nextLink (u : string) : option string :=
  match NewDocument W u with
  | Ok doc => returned (extractNextUrl doc)
  | Err _ => None
  end.

(** The page sequence of a traversal: the URL reached from [u] by
    following [k] next-page links. *)
Fixpoint urlAt (k : nat) (u : string) : option string :=
  match k with
  | O => Some u
  | S k' =>
      match nextLink u with
      | Some next => urlAt k' next
      | None => None
      end
  end.

(** What [getActualImageUrl] reads for one table: the [src] of the first
    [img] below the table's parent. *)
Definition srcUnderParent (s : loc) : option string :=
  Attr (Find (Parent s) [tag "img"]) "src".

(** The asset rule as the specification words it: the [src] of the image
    that is a sibling of the first table, empty when there is none. *)
Definition firstTableSiblingSrc (doc : document) : string :=
  match FindDoc doc [tag "div"; tag "table"] with
  | [] => ""
  | (_, up) :: _ =>
      match up with
      | [] => ""
      | p :: _ =>
          match filter (fun c => String.eqb (tagOf c) "img") (childrenOf p) with
          | [] => ""
          | i :: _ =>
              match lookupAttr "src" (attrsOf i) with
              | Some v => v
              | None => ""
              end
          end
      end
  end.

(** [func createDestinationDir()]; 0740 in octal is 480. *)
Definition createDestinationDir : M unit :=
  emit (MkdirAll (directory config) 480) ;;
  match os_MkdirAll W (directory config) 480 with
  | Some err => log_Fatal err
  | None => ret tt
  end.

End Functions.

(** *** Reading a selection *)

(** The href values of the anchors of a selection that have one, in
    document order. *)
Definition hrefs (sel : selection) : list string :=
  flat_map (fun s => match Attr [s] "href" with Some v => [v] | None => [] end) sel.

(** The same, stopping at the first anchor without href. *)
Fixpoint hrefsBeforeGap (sel : selection) : list string :=
  match sel with
  | [] => []
  | s :: rest =>
      match Attr [s] "href" with
      | Some v => v :: hrefsBeforeGap rest
      | None => []
      end
  end.

Definition allHaveHref (sel : selection) : bool :=
  forallb (fun s => match Attr [s] "href" with Some _ => true | None => false end) sel.

(** The anchor is a next-page link: its id starts with [next_pager_]. *)
Definition isNextPager (s : loc) : bool :=
  match Attr [s] "id" with
  | Some val => Str.HasPrefix val "next_pager_"
  | None => false
  end.

(** The href of an anchor, empty when it has none, as [Attr] returns it. *)
Definition hrefOrEmpty (s : loc) : string :=
  match Attr [s] "href" with
  | Some h => h
  | None => ""
  end.

(** Log lines among events. *)
Definition logsOf (es : list event) : list string :=
  flat_map (fun e => match e with Log m => [m] | _ => [] end) es.

(** The URLs fetched with [goquery.NewDocument], in order. *)
Definition fetchesOf (es : list event) : list string :=
  flat_map (fun e => match e with Fetch u => [u] | _ => [] end) es.

(** The item links of the listing page at [u], as [extractImageUrls]
    selects them; none when the page cannot be fetched. *)
Definition itemLinks (W : world) (u : string) : list string :=
  match NewDocument W u with
  | Ok doc => hrefs (FindDoc doc [tagClass "div" "imagelog"; tag "p"; tag "a"])
  | Err _ => []
  end.

(** The traversal from [u] passes [k] pages that lead on to a different,
    non-empty URL and then reaches a page that stops it: one without
    next-page link, or one whose next-page link is its own URL. *)
Fixpoint stopsAfter (W : world) (config : conf) (k : nat) (u : string) : Prop :=
  u <> "" /\
  match k with
  | O => nextLink W config u = Some "" \/ nextLink W config u = Some u
  | S k' =>
      exists next,
        nextLink W config u = Some next /\ next <> "" /\ next <> u
        /\ stopsAfter W config k' next
  end.

(** The URLs of those [k + 1] pages. *)
Fixpoint route (W : world) (config : conf) (k : nat) (u : string) : list string :=
  u :: match k with
       | O => []
       | S k' =>
           match nextLink W config u with
           | Some next => route W config k' next
           | None => []
           end
       end.

(** The zero value of [var config conf]. *)
Definition zeroConf : conf :=
  {| directory := ""; url := ""; verbose := false; dryrun := false;
     size := 0; parallel := 0; defaultDomain := "" |}.

(** [func initDefaults()] *)
Definition initDefaults (c : conf) : conf :=
  {| directory := directory c; url := url c; verbose := verbose c;
     dryrun := dryrun c; size := size c; parallel := parallel c;
     defaultDomain := "http://nagi.ee" |}.

(** What [flag.Parse] leaves when it returns: the three flags ([None]
    when [-parallel] is not given) and the positional arguments.  The
    exits of [flag.Parse] itself are in [flag_Parse] below. *)
Record cmdline : Type := {
  flagParallel : option Z;
  flagVerbose : bool;
  flagDryrun : bool;
  args : list string
}.

(** [var Usage = func() { ...; os.Exit(1) }] *)
Definition Usage {A} : M A :=
  emit (Stderr ("Usage: nagibackup [<options>...] <directory> <url>" ++ newline)) ;;
  emit (Stderr "flag.PrintDefaults") ;;
  os_Exit 1.

(** [func parseArgs()], from the return of [flag.Parse()] on. *)
Definition parseArgs (cl : cmdline) (c : conf) : M conf :=
  let c1 := {| directory := directory c; url := url c;
               verbose := flagVerbose cl; dryrun := flagDryrun cl;
               size := size c;
               parallel := match flagParallel cl with Some n => n | None => 4%Z end;
               defaultDomain := defaultDomain c |} in
  if dryrun c1 then
    match args cl with
    | a0 :: _ =>
        if String.eqb a0 "" then Usage
        else ret {| directory := directory c1; url := a0; verbose := verbose c1;
                    dryrun := dryrun c1; size := size c1; parallel := parallel c1;
                    defaultDomain := defaultDomain c1 |}
    | [] => Usage
    end
  else
    match args cl with
    | a0 :: a1 :: _ =>
        if String.eqb a0 "" || String.eqb a1 "" then Usage
        else ret {| directory := a0; url := a1; verbose := verbose c1;
                    dryrun := dryrun c1; size := size c1; parallel := parallel c1;
                    defaultDomain := defaultDomain c1 |}
    | _ => Usage
    end.

(** [func main()] from the return of [flag.Parse()] up to the call of
    [startDownloads]: the configuration the goroutines read, or an early
    exit. *)
Definition mainPrelude (W : world) (cl : cmdline) : M conf :=
  c <- parseArgs cl (initDefaults zeroConf) ;;
  (if dryrun c then ret tt else createDestinationDir W c) ;;
  ret c.

(** What [flag.Parse()] makes of the command line: it returns with the
    flags set, or it ends the process itself, with status 2 after an
    undefined flag, a malformed value or a [-parallel] that is no [int],
    with status 0 after [-h] or [-help]; in both cases [text] is what it
    wrote to standard error. *)
Inductive parsing : Type :=
| Parsed (cl : cmdline)
| Rejected (text : string)
| HelpAsked (text : string).

(** The call [flag.Parse()] in [parseArgs]. *)
Definition flag_Parse (p : parsing) : M cmdline :=
  match p with
  | Parsed cl => ret cl
  | Rejected text => emit (Stderr text) ;; os_Exit 2
  | HelpAsked text => emit (Stderr text) ;; os_Exit 0
  end.

(** A value of Go's [int] (64 bits), as [flag.IntVar] stores it. *)
Definition fitsInt (n : Z) : Prop := (- 2 ^ 63 <= n < 2 ^ 63)%Z.

Definition fitsParallel (cl : cmdline) : Prop :=
  match flagParallel cl with
  | Some n => fitsInt n
  | None => True
  end.

End Nagi.

(** ** The goroutines of [startDownloads] *)

Module Pipeline.
Import Dom Nagi.

(** Where a [downloadActualImage] goroutine stands. *)
Inductive task : Type :=
| TStart (url : string)          (* spawned, before getActualImageUrl(url) *)
| TDownload (imageUrl : string)  (* imageUrl != "", in downloadImage(imageUrl) *)
| TRelease                       (* at [if config.parallel > 0 { <-semaphore }] *)
| TDefer                         (* at the deferred wg.Done() *)
| TEnd.

(** Where the consumer of [urls] stands: [downloadImages], or
    [printImages] in a dry run. *)
Inductive consumer : Type :=
| SRange                                  (* blocked in [for url := range urls] *)
| SGot (url : string)                     (* holds the URL just received *)
| SEach (rest : selection)                (* in Each, anchors still to visit *)
| SToken (val : string) (rest : selection)  (* past [semaphore <- struct{}{}] *)
| SAdded (val : string) (rest : selection)  (* past wg.Add(1) *)
| SDefer                                  (* range over, at the deferred wg.Done() *)
| SEnd.

Record state : Type := St {
  walker : M bool;        (* what fetchAllImageUrls still has to do *)
  closed : bool;          (* close(urls) has happened *)
  sink : consumer;
  tasks : list task;      (* one entry per [go downloadActualImage] *)
  sem : nat;              (* len(semaphore) *)
  wg : nat;               (* the wait group's counter *)
  exited : option Z       (* the process has exited with this status *)
}.

(** One atomic move of one goroutine. *)
Inductive action : Type :=
| Walk (e : event)                 (* walker: an event other than the three below *)
| Handoff (u : string)             (* walker's [urls <- u] meets the consumer's receive *)
| CloseUrls                        (* walker: deferred close(urls) *)
| WalkerDone                       (* walker: deferred wg.Done() *)
| WalkerFatal (code : Z)           (* walker: log.Fatal ends the process *)
| PrintLine (es : list event)      (* printImages: fmt.Printf *)
| OpenItem (es : list event)       (* downloadImages: goquery.NewDocument *)
| Pass (es : list event)           (* downloadImages: anchor passed over *)
| Acquire (u : string)             (* downloadImages: semaphore <- struct{}{} *)
| Unbounded (u : string)           (* downloadImages: config.parallel <= 0 *)
| Add                              (* downloadImages: wg.Add(1) *)
| Go (u : string)                  (* downloadImages: go downloadActualImage(u, wg) *)
| EachEnd                          (* downloadImages: Each returns *)
| RangeEnd                         (* consumer: range sees the channel closed *)
| SinkDone                         (* consumer: deferred wg.Done() *)
| Resolve (i : nat) (es : list event)         (* task i: getActualImageUrl *)
| Download (i : nat) (es : list event)        (* task i: downloadImage returns *)
| DownloadFatal (i : nat) (es : list event) (code : Z)
| Release (i : nat)                (* task i: <-semaphore *)
| NoRelease (i : nat)              (* task i: config.parallel <= 0 *)
| TaskDone (i : nat)               (* task i: deferred wg.Done() *)
| MainExit.                        (* main: wg.Wait() returns, os.Exit(0) *)

(** Replace the [i]-th element of a list. *)
Fixpoint setNth {A} (i : nat) (x : A) (l : list A) : list A :=
  match l, i with
  | [], _ => []
  | _ :: l', O => x :: l'
  | y :: l', S i' => y :: setNth i' x l'
  end.

Definition isSync (e : event) : bool :=
  match e with
  | Send _ | CloseChan | WgDone => true
  | _ => false
  end.

Section Machine.

Variable W : world.
Variable config : conf.

(** [initParallelSemaphore]: the channel exists when [parallel > 0] and
    then has capacity [parallel]. *)
Definition bounded : bool := (0 <? parallel config)%Z.
Definition capacity : nat := Z.to_nat (parallel config).

Inductive step : state -> action -> state -> Prop :=
(* fetchAllImageUrls *)
| step_walk e es o cl sk ts sm g :
    isSync e = false ->
    step (St (e :: es, o) cl sk ts sm g None) (Walk e)
         (St (es, o) cl sk ts sm g None)
| step_handoff u es o ts sm g :
    step (St (Send u :: es, o) false SRange ts sm g None) (Handoff u)
         (St (es, o) false (SGot u) ts sm g None)
| step_close es o sk ts sm g :
    step (St (CloseChan :: es, o) false sk ts sm g None) CloseUrls
         (St (es, o) true sk ts sm g None)
| step_walker_done es o cl sk ts sm g :
    step (St (WgDone :: es, o) cl sk ts sm (S g) None) WalkerDone
         (St (es, o) cl sk ts sm g None)
| step_walker_fatal c cl sk ts sm g :
    step (St ([], Exit c) cl sk ts sm g None) (WalkerFatal c)
         (St ([], Exit c) cl sk ts sm g (Some c))
(* printImages *)
| step_print u w cl ts sm g :
    dryrun config = true ->
    step (St w cl (SGot u) ts sm g None) (PrintLine (fst (printLine u)))
         (St w cl SRange ts sm g None)
(* downloadImages *)
| step_open_ok u es rest w cl ts sm g :
    dryrun config = false ->
    openItem W u = (es, Ret (Some rest)) ->
    step (St w cl (SGot u) ts sm g None) (OpenItem es)
         (St w cl (SEach rest) ts sm g None)
| step_open_err u es w cl ts sm g :
    dryrun config = false ->
    openItem W u = (es, Ret None) ->
    step (St w cl (SGot u) ts sm g None) (OpenItem es)
         (St w cl SRange ts sm g None)
| step_pass s rest es w cl ts sm g :
    wanted config s = (es, Ret None) ->
    step (St w cl (SEach (s :: rest)) ts sm g None) (Pass es)
         (St w cl (SEach rest) ts sm g None)
| step_acquire s rest val w cl ts sm g :
    wanted config s = ([], Ret (Some val)) ->
    bounded = true ->
    sm < capacity ->
    step (St w cl (SEach (s :: rest)) ts sm g None) (Acquire val)
         (St w cl (SToken val rest) ts (S sm) g None)
| step_unbounded s rest val w cl ts sm g :
    wanted config s = ([], Ret (Some val)) ->
    bounded = false ->
    step (St w cl (SEach (s :: rest)) ts sm g None) (Unbounded val)
         (St w cl (SToken val rest) ts sm g None)
| step_add val rest w cl ts sm g :
    step (St w cl (SToken val rest) ts sm g None) Add
         (St w cl (SAdded val rest) ts sm (S g) None)
| step_go val rest w cl ts sm g :
    step (St w cl (SAdded val rest) ts sm g None)
         (Go (defaultDomain config ++ val))
         (St w cl (SEach rest) (ts ++ [TStart (defaultDomain config ++ val)])%list
             sm g None)
| step_each_end w cl ts sm g :
    step (St w cl (SEach []) ts sm g None) EachEnd
         (St w cl SRange ts sm g None)
(* either consumer *)
| step_range_end w ts sm g :
    step (St w true SRange ts sm g None) RangeEnd
         (St w true SDefer ts sm g None)
| step_sink_done w cl ts sm g :
    step (St w cl SDefer ts sm (S g) None) SinkDone
         (St w cl SEnd ts sm g None)
(* downloadActualImage *)
| step_resolve_some i u es img w cl sk ts sm g :
    nth_error ts i = Some (TStart u) ->
    getActualImageUrl W u = (es, Ret img) ->
    String.eqb img "" = false ->
    step (St w cl sk ts sm g None) (Resolve i es)
         (St w cl sk (setNth i (TDownload img) ts) sm g None)
| step_resolve_empty i u es img w cl sk ts sm g :
    nth_error ts i = Some (TStart u) ->
    getActualImageUrl W u = (es, Ret img) ->
    String.eqb img "" = true ->
    step (St w cl sk ts sm g None) (Resolve i es)
         (St w cl sk (setNth i TRelease ts) sm g None)
| step_download i img es w cl sk ts sm g :
    nth_error ts i = Some (TDownload img) ->
    downloadImage W config img = (es, Ret tt) ->
    step (St w cl sk ts sm g None) (Download i es)
         (St w cl sk (setNth i TRelease ts) sm g None)
| step_download_fatal i img es c w cl sk ts sm g :
    nth_error ts i = Some (TDownload img) ->
    downloadImage W config img = (es, Exit c) ->
    step (St w cl sk ts sm g None) (DownloadFatal i es c)
         (St w cl sk ts sm g (Some c))
| step_release i w cl sk ts sm g :
    nth_error ts i = Some TRelease ->
    bounded = true ->
    step (St w cl sk ts (S sm) g None) (Release i)
         (St w cl sk (setNth i TDefer ts) sm g None)
| step_no_release i w cl sk ts sm g :
    nth_error ts i = Some TRelease ->
    bounded = false ->
    step (St w cl sk ts sm g None) (NoRelease i)
         (St w cl sk (setNth i TDefer ts) sm g None)
| step_task_done i w cl sk ts sm g :
    nth_error ts i = Some TDefer ->
    step (St w cl sk ts sm (S g) None) (TaskDone i)
         (St w cl sk (setNth i TEnd ts) sm g None)
(* main *)
| step_main_exit w cl sk ts sm :
    step (St w cl sk ts sm 0 None) MainExit
         (St w cl sk ts sm 0 (Some 0%Z)).

(** [startDownloads]: [wg.Add(2)], then the two goroutines start. *)
Definition init (wprog : M bool) : state :=
  St wprog false SRange [] 0 2 None.

(** Executions, with the actions taken in order. *)
Inductive run : state -> list action -> state -> Prop :=
| run_nil s : run s [] s
| run_cons s a s' tr s'' :
    step s a s' -> run s' tr s'' -> run s (a :: tr) s''.

End Machine.

(** The events an action shows to the outside. *)
Definition effects (a : action) : list event :=
  match a with
  | Walk e => [e]
  | PrintLine es | OpenItem es | Pass es => es
  | Resolve _ es | Download _ es | DownloadFatal _ es _ => es
  | _ => []
  end.

Definition effectsOf (tr : list action) : list event := flat_map effects tr.

(** [func main()]: the events of a whole run of the program observed at
    some moment, and the exit status if it has exited by then. *)
Inductive mainRun (W : world) (cl : cmdline) : list event -> option Z -> Prop :=
| main_early es c :
    mainPrelude W cl = (es, Exit c) ->
    mainRun W cl es (Some c)
| main_started es config fuel tr s :
    mainPrelude W cl = (es, Ret config) ->
    run W config (init (fetchAllImageUrls W config fuel (url config))) tr s ->
    mainRun W cl (es ++ effectsOf tr)%list (exited s).

(** The whole program, [flag.Parse()] included: the events of a run
    observed at some moment, and the exit status if it has exited. *)
Inductive programRun (W : world) : parsing -> list event -> option Z -> Prop :=
| program_stopped p es c :
    flag_Parse p = (es, Exit c) ->
    programRun W p es (Some c)
| program_parsed cl evs code :
    fitsParallel cl ->
    mainRun W cl evs code ->
    programRun W (Parsed cl) evs code.

(** *** Measures on states and executions *)

(** The task has been spawned and has not yet given its token back. *)
Definition holding (t : task) : bool :=
  match t with
  | TStart _ | TDownload _ | TRelease => true
  | TDefer | TEnd => false
  end.

(** The task is inside [downloadImage]. *)
Definition downloading (t : task) : bool :=
  match t with
  | TDownload _ => true
  | _ => false
  end.

(** The task has not yet called [getActualImageUrl]. *)
Definition unresolved (t : task) : bool :=
  match t with
  | TStart _ => true
  | _ => false
  end.

(** The task is about to give its token back. *)
Definition releasing (t : task) : bool :=
  match t with
  | TRelease => true
  | _ => false
  end.

Definition count {A} (p : A -> bool) (l : list A) : nat := length (filter p l).

Definition inFlight (s : state) : nat := count holding (tasks s).
Definition executing (s : state) : nat := count downloading (tasks s).

(** The consumer has taken a token for a task it has not spawned yet. *)
Definition sinkHeld (k : consumer) : nat :=
  match k with
  | SToken _ _ | SAdded _ _ => 1
  | _ => 0
  end.

Definition isAcquire (a : action) : bool :=
  match a with Acquire _ => true | _ => false end.
Definition isSpawn (a : action) : bool :=
  match a with Go _ => true | _ => false end.
Definition isResolve (a : action) : bool :=
  match a with Resolve _ _ => true | _ => false end.
Definition isRelease (a : action) : bool :=
  match a with Release _ => true | _ => false end.
Definition isDownloadStart (a : action) : bool :=
  match a with Download _ _ | DownloadFatal _ _ _ => true | _ => false end.

(** Events of a download proper: the file and the transfer. *)
Definition isTransfer (e : event) : bool :=
  match e with
  | Create _ | HttpGet _ | Copy _ | Sync _ => true
  | _ => false
  end.

Definition isMkdir (e : event) : bool :=
  match e with MkdirAll _ _ => true | _ => false end.

(** The text written to standard output, in order. *)
Definition stdoutOf (es : list event) : list string :=
  flat_map (fun e => match e with Stdout t => [t] | _ => [] end) es.

(** The URLs a list of walker events puts on [urls], in order. *)
Definition sendsOf (es : list event) : list string :=
  flat_map (fun e => match e with Send u => [u] | _ => [] end) es.

(** The URLs the consumer has received, in order. *)
Definition received (tr : list action) : list string :=
  flat_map (fun a => match a with Handoff u => [u] | _ => [] end) tr.

(** What the walker has done along an execution. *)
Definition walked (tr : list action) : list event :=
  flat_map (fun a => match a with
                     | Walk e => [e]
                     | Handoff u => [Send u]
                     | CloseUrls => [CloseChan]
                     | WalkerDone => [WgDone]
                     | _ => []
                     end) tr.

(** The line [printImages] still owes for a URL it has received. *)
Definition owed (k : consumer) : list string :=
  match k with
  | SGot u => [u ++ newline]
  | _ => []
  end.

(** The books of the token pool along an execution [tr] that has reached
    [s]: every task was spawned by a [go], resolutions are counted
    against tasks, and with a bounded pool every token in the channel is
    owed either to a task in flight or to the spawn the consumer is
    about to make. *)
Definition ledger (config : conf) (tr : list action) (s : state) : Prop :=
  count isSpawn tr = length (tasks s)
  /\ count isResolve tr + count unresolved (tasks s) = length (tasks s)
  /\ count unresolved (tasks s) + executing s + count releasing (tasks s) = inFlight s
  /\ (bounded config = true ->
      count isAcquire tr = length (tasks s) + sinkHeld (sink s)
      /\ count isRelease tr + inFlight s = length (tasks s)
      /\ sem s = inFlight s + sinkHeld (sink s)
      /\ sem s <= capacity config).

(** A task is inside [downloadImage] only with a non-empty image URL. *)
Definition sound (t : task) : Prop :=
  match t with
  | TDownload imageUrl => imageUrl <> ""
  | _ => True
  end.

Definition isWalkerDone (a : action) : bool :=
  match a with WalkerDone => true | _ => false end.

(** The consumer is at a point of [printImages]. *)
Definition reporting (k : consumer) : bool :=
  match k with
  | SRange | SGot _ | SDefer | SEnd => true
  | _ => false
  end.

Definition rangeOver (k : consumer) : bool :=
  match k with
  | SDefer | SEnd => true
  | _ => false
  end.

Definition ended (k : consumer) : nat :=
  match k with
  | SEnd => 1
  | _ => 0
  end.

(** An event of [fetchAllImageUrls], deferred calls included. *)
Definition walkerEvent (e : event) : Prop :=
  plain e \/ e = CloseChan \/ e = WgDone.

(** [wg.Done()] is the last thing in the list, if it is there at all. *)
Definition doneLast (es : list event) : Prop :=
  forall pre post, es = (pre ++ WgDone :: post)%list -> post = [].

(** Neither a directory creation nor part of a download. *)
Definition harmless (e : event) : Prop :=
  isMkdir e = false /\ isTransfer e = false.

(** The books of a dry run of the walker program [wprog] along an
    execution [tr] that has reached [s]. *)
Definition dryBooks (wprog : M bool) (tr : list action) (s : state) : Prop :=
  tasks s = []
  /\ reporting (sink s) = true
  /\ Forall walkerEvent (fst (walker s))
  /\ snd (walker s) = snd wprog
  /\ Forall harmless (effectsOf tr)
  /\ (stdoutOf (effectsOf tr) ++ owed (sink s))%list
     = map (fun u => u ++ newline) (received tr)
  /\ sendsOf (fst wprog) = (received tr ++ sendsOf (fst (walker s)))%list
  /\ ((count isWalkerDone tr = 0 /\ doneLast (fst (walker s)))
      \/ (count isWalkerDone tr = 1 /\ fst (walker s) = []))
  /\ wg s + count isWalkerDone tr + ended (sink s) = 2
  /\ (rangeOver (sink s) = true -> closed s = true)
  /\ (exited s = Some 0%Z -> wg s = 0).

(** *** The wait group and the walker's progress *)

(** The task has not yet run its deferred [wg.Done()]. *)
Definition alive (t : task) : bool :=
  match t with
  | TEnd => false
  | _ => true
  end.

(** The consumer has called [wg.Add(1)] for a task it has not started. *)
Definition pendingAdd (k : consumer) : nat :=
  match k with
  | SAdded _ _ => 1
  | _ => 0
  end.

(** Where the walker program [wprog] stands in [s]: still before its
    [close(urls)], between the close and its [wg.Done()], or done. *)
Definition walkerPhase (wprog : M bool) (tr : list action) (s : state) : Prop :=
  snd (walker s) = snd wprog
  /\ ((closed s = false /\ count isWalkerDone tr = 0
       /\ exists pre,
            Forall plain pre
            /\ ((fst (walker s) = (pre ++ [CloseChan; WgDone])%list
                 /\ snd wprog = Ret true)
                \/ (fst (walker s) = pre /\ snd wprog <> Ret true)))
      \/ (closed s = true /\ count isWalkerDone tr = 0
          /\ fst (walker s) = [WgDone] /\ snd wprog = Ret true)
      \/ (closed s = true /\ count isWalkerDone tr = 1
          /\ fst (walker s) = [] /\ snd wprog = Ret true)).

(** The books of the wait group along an execution [tr] that has
    reached [s]: the counter stands for the walker and the consumer
    until each has called [wg.Done()], for every task that has not, and
    for the [wg.Add(1)] whose task is not started yet; the consumer
    leaves its range only on a closed channel; and the process exits
    with status 1, or with status 0 on a counter of zero. *)
Definition wgBooks (wprog : M bool) (tr : list action) (s : state) : Prop :=
  walkerPhase wprog tr s
  /\ wg s + count isWalkerDone tr + ended (sink s)
     = 2 + pendingAdd (sink s) + count alive (tasks s)
  /\ (rangeOver (sink s) = true -> closed s = true)
  /\ (forall c, exited s = Some c -> c = 1%Z \/ (c = 0%Z /\ wg s = 0)).

(** The URLs of the tasks started along an execution, in order. *)
Definition spawnsOf (tr : list action) : list string :=
  flat_map (fun a => match a with Go u => [u] | _ => [] end) tr.

(** A URL built from the base domain and an href offering the original
    size. *)
Definition originalSize (config : conf) (u : string) : Prop :=
  exists val, u = defaultDomain config ++ val /\ Str.Contains val "size=o" = true.

(** The href the consumer is about to spawn a task for offers the
    original size. *)
Definition sinkChoice (k : consumer) : Prop :=
  match k with
  | SToken val _ | SAdded val _ => Str.Contains val "size=o" = true
  | _ => True
  end.

(** The task URLs [downloadImages] derives from the anchors of one item
    page, in document order. *)
Definition wantedUrls (config : conf) (sel : selection) : list string :=
  flat_map (fun s => match returned (wanted config s) with
                     | Some (Some val) => [defaultDomain config ++ val]
                     | _ => []
                     end) sel.

(** The item pages [downloadImages] has opened, in order. *)
Definition openedOf (tr : list action) : list string :=
  flat_map (fun a => match a with OpenItem es => fetchesOf es | _ => [] end) tr.

(** The URL the consumer has received and not yet dealt with. *)
Definition inHand (k : consumer) : list string :=
  match k with
  | SGot u => [u]
  | _ => []
  end.

(** Permission bits of a file mode. *)
Definition ownerRWX (perm : Z) : bool * bool * bool :=
  (Z.testbit perm 8, Z.testbit perm 7, Z.testbit perm 6).
Definition groupRWX (perm : Z) : bool * bool * bool :=
  (Z.testbit perm 5, Z.testbit perm 4, Z.testbit perm 3).
Definition otherRWX (perm : Z) : bool * bool * bool :=
  (Z.testbit perm 2, Z.testbit perm 1, Z.testbit perm 0).

End Pipeline.

(** ** Concrete pages and services used in the examples *)

Module Examples.
Import Dom Nagi Pipeline.

Definition el (t : string) (kids : list node) : node := Element t [] kids.
Definition img (src : string) : node := Element "img" [("src", src)] [].
Definition anchor (attrs : list (string * string)) : node := Element "a" attrs [].
Definition page (body : list node) : document := [el "html" [el "body" body]].

(** A detail page with two tables, each next to its own image. *)
Definition twoTables : document :=
  page [el "div" [el "table" []; img "first.jpg"];
        el "div" [el "table" []; img "second.jpg"]].

(** A detail page without any table. *)
Definition noTable : document := page [el "div" [img "lonely.jpg"]].

(** A listing page whose second item link has no href. *)
Definition listing : document :=
  page [Element "div" [("class", "imagelog")]
          [el "p" [anchor [("href", "/i1")]; anchor []; anchor [("href", "/i2")]]]].

(** A listing page whose next-page anchor has no href. *)
Definition brokenPager : document :=
  page [Element "div" [("class", "pager")]
          [anchor [("class", "navi"); ("id", "next_pager_2")]]].

(** An item page offering the original size of one image. *)
Definition itemPage : document :=
  page [Element "div" [("id", "zoom")]
          [el "ul" [el "li" [anchor [("href", "/view?id=7&size=o")]]]]].

(** A listing page with one item link and no pager. *)
Definition seedPage : document :=
  page [Element "div" [("class", "imagelog")]
          [el "p" [anchor [("href", "item")]]]].

Definition joinSlash (a b : string) : string := a ++ "/" ++ b.

(** Services that answer every fetch with [doc] and never fail. *)
Definition serving (doc : document) : world :=
  {| NewDocument := fun _ => Ok doc;
     os_MkdirAll := fun _ _ => None;
     os_Create := fun _ => None;
     http_Get := fun _ => Ok "bytes";
     io_Copy := fun _ _ => None;
     out_Sync := fun _ => None;
     path_Join := joinSlash;
     path_Base := fun u => u |}.

(** The same, on a file system that refuses to create files. *)
Definition readOnly (doc : document) : world :=
  {| NewDocument := fun _ => Ok doc;
     os_MkdirAll := fun _ _ => None;
     os_Create := fun _ => Some "permission denied";
     http_Get := fun _ => Ok "bytes";
     io_Copy := fun _ _ => None;
     out_Sync := fun _ => None;
     path_Join := joinSlash;
     path_Base := fun u => u |}.

(** The seed lists one item and the item offers its original size, but
    the detail page shows no table. *)
Definition gallery : world :=
  {| NewDocument := fun u =>
       if String.eqb u "seed" then Ok seedPage
       else if String.eqb u "item" then Ok itemPage
       else Ok noTable;
     os_MkdirAll := fun _ _ => None;
     os_Create := fun _ => None;
     http_Get := fun _ => Ok "bytes";
     io_Copy := fun _ _ => None;
     out_Sync := fun _ => None;
     path_Join := joinSlash;
     path_Base := fun u => u |}.

(** Nothing can be fetched. *)
Definition offline : world :=
  {| NewDocument := fun _ => Err "no route to host";
     os_MkdirAll := fun _ _ => None;
     os_Create := fun _ => None;
     http_Get := fun _ => Err "no route to host";
     io_Copy := fun _ _ => None;
     out_Sync := fun _ => None;
     path_Join := joinSlash;
     path_Base := fun u => u |}.

Definition settings (v d : bool) (n : Z) : conf :=
  {| directory := "out"; url := "seed"; verbose := v; dryrun := d;
     size := 0; parallel := n; defaultDomain := "http://nagi.ee" |}.

Definition quiet : conf := settings false false 1.
Definition chatty : conf := settings true false 1.

(** What [parseArgs] leaves for [-dry-run seed]. *)
Definition rehearsal : conf :=
  {| directory := ""; url := "seed"; verbose := false; dryrun := true;
     size := 0; parallel := 4; defaultDomain := "http://nagi.ee" |}.

Definition download2 : cmdline :=
  {| flagParallel := None; flagVerbose := false; flagDryrun := false;
     args := ["out"; "seed"] |}.

(** A one-page gallery: the seed lists one item, the item offers its
    original size, and the detail page shows the image. *)
Definition site : world :=
  {| NewDocument := fun u =>
       if String.eqb u "seed" then Ok seedPage
       else if String.eqb u "item" then Ok itemPage
       else Ok twoTables;
     os_MkdirAll := fun _ _ => None;
     os_Create := fun _ => None;
     http_Get := fun _ => Ok "bytes";
     io_Copy := fun _ _ => None;
     out_Sync := fun _ => None;
     path_Join := joinSlash;
     path_Base := fun u => u |}.

Definition archive : conf := settings false false 4.

(** A complete execution on [site]: fetch the seed, hand the item over,
    download its image under a token, and leave. *)
Definition siteTrace : list action :=
  [Walk (Fetch "seed"); Handoff "item"; OpenItem [Fetch "item"];
   Acquire "/view?id=7&size=o"; Add; Go "http://nagi.ee/view?id=7&size=o";
   Resolve 0 [Fetch "http://nagi.ee/view?id=7&size=o"];
   Download 0 [Create "out/second.jpg"; HttpGet "second.jpg";
               Copy "out/second.jpg"; Sync "out/second.jpg";
               CloseBody "second.jpg"; CloseFile "out/second.jpg"];
   Release 0; TaskDone 0; EachEnd; CloseUrls; WalkerDone; RangeEnd;
   SinkDone; MainExit].

Definition siteEnd : state :=
  St ([], Ret true) true SEnd [TEnd] 0 0 (Some 0%Z).

(** An execution on [gallery] with one token: the token is taken and
    the task spawned before the detail page is looked at. *)
Definition galleryTrace : list action :=
  [Walk (Fetch "seed"); Handoff "item"; OpenItem [Fetch "item"];
   Acquire "/view?id=7&size=o"; Add; Go "http://nagi.ee/view?id=7&size=o";
   Resolve 0 [Fetch "http://nagi.ee/view?id=7&size=o"]].

Definition galleryEnd : state :=
  St ([CloseChan; WgDone], Ret true) false (SEach []) [TRelease] 1 3 None.

(** [gallery] right after the task has been started, its image not yet
    resolved. *)
Definition gallerySpawned : state :=
  St ([CloseChan; WgDone], Ret true) false (SEach [])
     [TStart "http://nagi.ee/view?id=7&size=o"] 1 3 None.

(** [site] with the task inside [downloadImage]. *)
Definition siteResolved : state :=
  St ([CloseChan; WgDone], Ret true) false (SEach [])
     [TDownload "second.jpg"] 1 3 None.

(** A complete dry run on [site]. *)
Definition dryTrace : list action :=
  [Walk (Fetch "seed"); Handoff "item"; PrintLine [Stdout ("item" ++ newline)];
   CloseUrls; WalkerDone; RangeEnd; SinkDone; MainExit].

Definition dryEnd : state :=
  St ([], Ret true) true SEnd [] 0 0 (Some 0%Z).

(** A file system on which no directory can be made. *)
Definition sealed : world :=
  {| NewDocument := fun _ => Ok seedPage;
     os_MkdirAll := fun _ _ => Some "read-only file system";
     os_Create := fun _ => None;
     http_Get := fun _ => Ok "bytes";
     io_Copy := fun _ _ => None;
     out_Sync := fun _ => None;
     path_Join := joinSlash;
     path_Base := fun u => u |}.

(** Two next-page anchors; the second is the one that counts. *)
Definition twoPagers : document :=
  page [Element "div" [("class", "pager")]
          [anchor [("class", "navi"); ("id", "prev_pager_1"); ("href", "/page/1")];
           anchor [("class", "navi"); ("id", "next_pager_3"); ("href", "/page/3")];
           anchor [("class", "navi"); ("id", "next_pager_4"); ("href", "/page/4")]]].

(** A gallery of two listing pages, the second without pager. *)
Definition pageOne : document :=
  page [Element "div" [("class", "imagelog")]
          [el "p" [anchor [("href", "/i1")]; anchor [("href", "/i2")]]];
        Element "div" [("class", "pager")]
          [anchor [("class", "navi"); ("id", "next_pager_2"); ("href", "/page/2")]]].

Definition pageTwo : document :=
  page [Element "div" [("class", "imagelog")]
          [el "p" [anchor [("href", "/i3")]]]].

Definition twoPages : world :=
  {| NewDocument := fun u =>
       if String.eqb u "http://nagi.ee/page/1" then Ok pageOne
       else if String.eqb u "http://nagi.ee/page/2" then Ok pageTwo
       else Err "404";
     os_MkdirAll := fun _ _ => None;
     os_Create := fun _ => None;
     http_Get := fun _ => Ok "bytes";
     io_Copy := fun _ _ => None;
     out_Sync := fun _ => None;
     path_Join := joinSlash;
     path_Base := fun u => u |}.

(** An item page offering the original size of three images, and a
    thumbnail. *)
Definition albumPage : document :=
  page [Element "div" [("id", "zoom")]
          [el "ul" [el "li" [anchor [("href", "/view?id=1&size=o")]];
                    el "li" [anchor [("href", "/view?id=1&size=t")]];
                    el "li" [anchor [("href", "/view?id=2&size=o")]];
                    el "li" [anchor []];
                    el "li" [anchor [("href", "/view?id=3&size=o")]]]]].

Definition freeForAll : conf := settings false false 0.

Definition dry1 : cmdline :=
  {| flagParallel := None; flagVerbose := false; flagDryrun := true;
     args := ["seed"] |}.

End Examples.

(** ** Properties of the sequential functions *)

Import Dom Nagi Pipeline Examples.

Lemma bind_ret_l {A B} (a : A) (f : A -> M B) : bind (ret a) f = f a.
Proof. unfold bind, ret. destruct (f a) as [es o]. reflexivity. Qed.

Lemma bind_emit {B} (e : event) (f : unit -> M B) :
  bind (emit e) f = (e :: fst (f tt), snd (f tt)).
Proof. unfold bind, emit. destruct (f tt) as [es o]. reflexivity. Qed.

Lemma bind_events {A B} (m : M A) (f : A -> M B) :
  exists rest, fst (bind m f) = (fst m ++ rest)%list.
Proof.
  destruct m as [es [a | c]]; simpl.
  - destruct (f a) as [es' o]. exists es'. reflexivity.
  - exists []. symmetry. apply app_nil_r.
Qed.

(** A loop whose body only computes is a left fold. *)
Lemma forEach_pure {X S} (f : S -> X -> S) (l : list X) (s : S) :
  forEach l (fun acc x => ret (f acc x)) s = ([], Ret (fold_left f l s)).
Proof.
  revert s. induction l as [| x l IH]; intros s; simpl.
  - reflexivity.
  - unfold bind, ret. rewrite IH. reflexivity.
Qed.

Lemma pickImage_src (image : string) (s : loc) :
  pickImage image s =
  match srcUnderParent s with Some v => v | None => image end.
Proof. reflexivity. Qed.

Lemma fold_pickImage_none (l : selection) (image : string) :
  Forall (fun t => srcUnderParent t = None) l ->
  fold_left pickImage l image = image.
Proof.
  intros H. revert image. induction H as [| t l Ht _ IH]; intros image; simpl.
  - reflexivity.
  - rewrite pickImage_src, Ht. apply IH.
Qed.

Lemma fold_pickImage_last (pre post : selection) (t : loc) (v image : string) :
  srcUnderParent t = Some v ->
  Forall (fun t' => srcUnderParent t' = None) post ->
  fold_left pickImage (pre ++ t :: post) image = v.
Proof.
  intros Ht Hpost. rewrite fold_left_app. simpl.
  rewrite pickImage_src, Ht. apply fold_pickImage_none, Hpost.
Qed.

Lemma getActualImageUrl_ok (W : world) (url : string) (doc : document) :
  NewDocument W url = Ok doc ->
  getActualImageUrl W url =
  ([Fetch url],
   Ret (fold_left pickImage (FindDoc doc [tag "div"; tag "table"]) "")).
Proof.
  intros Hdoc. unfold getActualImageUrl. rewrite bind_emit, Hdoc.
  unfold Each. rewrite (forEach_pure pickImage). reflexivity.
Qed.

Lemma getActualImageUrl_err (W : world) (url err : string) :
  NewDocument W url = Err err ->
  getActualImageUrl W url =
  ([Fetch url; Log ("Error opening document for single image: " ++ err)],
   Ret "").
Proof.
  intros Hdoc. unfold getActualImageUrl. rewrite bind_emit, Hdoc. reflexivity.
Qed.

(** C6, as the specification states it, fails: on a page with two
    tables, each with its own sibling image, the resolver answers with
    the image of the second table, not of the first. *)
Lemma getActualImageUrl_not_first_table :
  getActualImageUrl (serving twoTables) "item" = ([Fetch "item"], Ret "second.jpg")
  /\ firstTableSiblingSrc twoTables = "first.jpg".
Proof. split; reflexivity. Qed.

(** C6, amended: the resolver returns the [src] of the first [img] below
    the parent of the last ["div table"] element for which that [img]
    has a [src]; it returns the empty string when no table has one. *)
Theorem getActualImageUrl_last_table (W : world) (url : string) (doc : document)
    (Hdoc : NewDocument W url = Ok doc) :
  (forall pre t post v,
      FindDoc doc [tag "div"; tag "table"] = (pre ++ t :: post)%list ->
      srcUnderParent t = Some v ->
      Forall (fun t' => srcUnderParent t' = None) post ->
      getActualImageUrl W url = ([Fetch url], Ret v))
  /\ (Forall (fun t => srcUnderParent t = None)
             (FindDoc doc [tag "div"; tag "table"]) ->
      getActualImageUrl W url = ([Fetch url], Ret "")).
Proof.
  rewrite (getActualImageUrl_ok W url doc Hdoc). split.
  - intros pre t post v Htables Ht Hpost. rewrite Htables.
    rewrite (fold_pickImage_last pre post t v "" Ht Hpost). reflexivity.
  - intros Hnone. rewrite (fold_pickImage_none _ "" Hnone). reflexivity.
Qed.

Lemma getActualImageUrl_last_table_witness :
  getActualImageUrl (serving twoTables) "item" = ([Fetch "item"], Ret "second.jpg")
  /\ getActualImageUrl (serving noTable) "item" = ([Fetch "item"], Ret "").
Proof.
  split.
  - apply (proj1 (getActualImageUrl_last_table (serving twoTables) "item"
                    twoTables eq_refl)
             (firstn 1 (FindDoc twoTables [tag "div"; tag "table"]))
             (nth 1 (FindDoc twoTables [tag "div"; tag "table"])
                  (el "table" [], []))
             []).
    + reflexivity.
    + reflexivity.
    + constructor.
  - apply (proj2 (getActualImageUrl_last_table (serving noTable) "item"
                    noTable eq_refl)).
    constructor.
Defined.

Lemma step_not_exited (W : world) (config : conf) (s s' : state) (a : action) :
  step W config s a s' -> exited s = None.
Proof. intros H. destruct H; reflexivity. Qed.

(** After the process has exited no goroutine moves. *)
Lemma exited_is_final (W : world) (config : conf) (s s' : state) (a : action) (c : Z) :
  exited s = Some c -> ~ step W config s a s'.
Proof.
  intros He H. apply step_not_exited in H. congruence.
Qed.

(** C7: the resolver always returns to its caller.  When the detail page
    cannot be fetched or parsed it logs the error and returns the empty
    string; when no table has an image with a [src] it returns the empty
    string as well; and a task that resolves keeps the process alive. *)
Theorem getActualImageUrl_never_aborts (W : world) (config : conf) (url : string) :
  exists es image,
    getActualImageUrl W url = (es, Ret image)
    /\ (forall err, NewDocument W url = Err err ->
          es = [Fetch url; Log ("Error opening document for single image: " ++ err)]
          /\ image = "")
    /\ (forall doc, NewDocument W url = Ok doc ->
          Forall (fun t => srcUnderParent t = None)
                 (FindDoc doc [tag "div"; tag "table"]) ->
          image = "")
    /\ (forall w cl sk ts sm g i,
          nth_error ts i = Some (TStart url) ->
          exists t',
            step W config (St w cl sk ts sm g None) (Resolve i es)
                 (St w cl sk (setNth i t' ts) sm g None)).
Proof.
  destruct (NewDocument W url) as [doc | err] eqn:Hdoc.
  - exists [Fetch url],
      (fold_left pickImage (FindDoc doc [tag "div"; tag "table"]) "").
    pose proof (getActualImageUrl_ok W url doc Hdoc) as Hget.
    split; [exact Hget |]. split; [| split].
    + intros err Herr. discriminate Herr.
    + intros doc' Hdoc' Hnone. injection Hdoc' as <-.
      apply fold_pickImage_none, Hnone.
    + intros w cl sk ts sm g i Hi.
      destruct (String.eqb (fold_left pickImage
                  (FindDoc doc [tag "div"; tag "table"]) "") "") eqn:He.
      * exists TRelease. eapply step_resolve_empty; eassumption.
      * eexists. eapply step_resolve_some; eassumption.
  - exists [Fetch url; Log ("Error opening document for single image: " ++ err)], "".
    pose proof (getActualImageUrl_err W url err Hdoc) as Hget.
    split; [exact Hget |]. split; [| split].
    + intros err' Herr. injection Herr as <-. split; reflexivity.
    + intros doc Hdoc'. discriminate Hdoc'.
    + intros w cl sk ts sm g i Hi.
      exists TRelease. eapply step_resolve_empty; try eassumption. reflexivity.
Qed.

Lemma getActualImageUrl_never_aborts_witness :
  getActualImageUrl offline "item" =
  ([Fetch "item"; Log "Error opening document for single image: no route to host"],
   Ret "").
Proof.
  destruct (getActualImageUrl_never_aborts offline quiet "item")
    as (es & image & Hget & Herr & _).
  destruct (Herr "no route to host" eq_refl) as [Hes Himage].
  rewrite Hget, Hes, Himage. reflexivity.
Defined.

(** C2, as the specification states it, fails: when the destination file
    cannot be created, [downloadImage] does not return; the process
    exits with status 1 right after the error is logged. *)
Lemma downloadImage_create_failure_exits :
  os_Create (readOnly noTable) (joinSlash "out" "a.jpg") = Some "permission denied"
  /\ downloadImage (readOnly noTable) quiet "a.jpg" =
     ([Create "out/a.jpg"; Log "permission denied"], Exit 1%Z).
Proof. split; reflexivity. Qed.

(** C2, amended: a failure of [os.Create] is logged and ends the process
    with status 1, the task's token still held and no goroutine running
    on; once the file is created, failures of the request, of the copy
    and of the sync are each logged, [downloadImage] returns normally
    and the task moves on to give its token back. *)
Theorem downloadImage_failures (W : world) (config : conf) (url : string) :
  let destination := path_Join W (directory config) (path_Base W url) in
  (forall err, os_Create W destination = Some err ->
     (exists pre, downloadImage W config url =
                  (pre ++ [Create destination; Log err], Exit 1%Z)%list)
     /\ forall w cl sk ts sm g i,
          nth_error ts i = Some (TDownload url) ->
          exists es s',
            step W config (St w cl sk ts sm g None) (DownloadFatal i es 1) s'
            /\ s' = St w cl sk ts sm g (Some 1%Z)
            /\ forall a s'', ~ step W config s' a s'')
  /\ (os_Create W destination = None ->
      exists es,
        downloadImage W config url = (es, Ret tt)
        /\ (forall err, http_Get W url = Err err ->
              In (Log ("Error in HTTP GET: " ++ err)) es)
        /\ (forall body err, http_Get W url = Ok body ->
              io_Copy W destination body = Some err ->
              In (Log ("Error in image download: " ++ err)) es)
        /\ (forall body err, http_Get W url = Ok body ->
              out_Sync W destination = Some err ->
              In (Log ("Error in image save: " ++ err)) es)
        /\ forall w cl sk ts sm g i,
             nth_error ts i = Some (TDownload url) ->
             step W config (St w cl sk ts sm g None) (Download i es)
                  (St w cl sk (setNth i TRelease ts) sm g None)).
Proof.
  intros destination. split.
  - intros err Hcreate.
    assert (Hrun : exists pre, downloadImage W config url =
              (pre ++ [Create destination; Log err], Exit 1%Z)%list).
    { unfold downloadImage. fold destination. rewrite Hcreate.
      destruct (verbose config); simpl.
      - exists [Log ("Saving into " ++ destination)]. reflexivity.
      - exists []. reflexivity. }
    split; [exact Hrun |].
    intros w cl sk ts sm g i Hi. destruct Hrun as [pre Hrun].
    eexists. eexists. split; [| split].
    + eapply step_download_fatal; eassumption.
    + reflexivity.
    + intros a s''. apply exited_is_final with (c := 1%Z). reflexivity.
  - intros Hcreate.
    assert (Hrun : exists es, downloadImage W config url = (es, Ret tt)
              /\ (forall err, http_Get W url = Err err ->
                    In (Log ("Error in HTTP GET: " ++ err)) es)
              /\ (forall body err, http_Get W url = Ok body ->
                    io_Copy W destination body = Some err ->
                    In (Log ("Error in image download: " ++ err)) es)
              /\ (forall body err, http_Get W url = Ok body ->
                    out_Sync W destination = Some err ->
                    In (Log ("Error in image save: " ++ err)) es)).
    { unfold downloadImage. fold destination. rewrite Hcreate.
      destruct (http_Get W url) as [body | gerr] eqn:Hget.
      - destruct (io_Copy W destination body) as [cerr |] eqn:Hcopy;
          destruct (out_Sync W destination) as [serr |] eqn:Hsync;
          destruct (verbose config); simpl;
          (eexists; split; [reflexivity |]);
          (split; [intros err' H; discriminate H |]);
          (split; intros body' err' Hb H; injection Hb as <-;
           try rewrite Hcopy in H; try rewrite Hsync in H;
           try discriminate H; injection H as <-; simpl; tauto).
      - destruct (verbose config); simpl;
          (eexists; split; [reflexivity |]);
          (split; [intros err' H; injection H as <-; simpl; tauto |]);
          (split; intros body' err' Hb H; discriminate Hb). }
    destruct Hrun as (es & Hrun & Hget & Hcopy & Hsync).
    exists es. repeat split; try assumption.
    intros w cl sk ts sm g i Hi. eapply step_download; eassumption.
Qed.

Lemma downloadImage_failures_witness :
  (exists pre, downloadImage (readOnly noTable) quiet "a.jpg" =
               (pre ++ [Create "out/a.jpg"; Log "permission denied"], Exit 1%Z)%list)
  /\ exists es, downloadImage (serving noTable) quiet "a.jpg" = (es, Ret tt).
Proof.
  split.
  - apply (proj1 (downloadImage_failures (readOnly noTable) quiet "a.jpg")
             "permission denied" eq_refl).
  - destruct (proj2 (downloadImage_failures (serving noTable) quiet "a.jpg") eq_refl)
      as (es & Hrun & _).
    exists es. exact Hrun.
Defined.

(** C3: with [-verbose] an item link without href ends the process: the
    walk over [listing] sends the first link, logs and exits with
    status 1, and the third link is never sent.  Without [-verbose] the
    same page yields both links. *)
Theorem extractImageUrls_missing_href_verbose_exits :
  extractImageUrls chatty listing = ([Send "/i1"; Log "Href not found"], Exit 1%Z)
  /\ extractImageUrls quiet listing = ([Send "/i1"; Send "/i2"], Ret tt).
Proof. split; reflexivity. Qed.

(** C10: a next-page anchor without href resolves to the bare base
    domain, not to the empty string, and the traversal goes on to fetch
    that URL. *)
Theorem extractNextUrl_missing_href_goes_on :
  extractNextUrl quiet brokenPager = ([Log "Invalid pager link"], Ret "http://nagi.ee")
  /\ iteration (serving brokenPager) quiet "http://nagi.ee/page/1" =
     ([Fetch "http://nagi.ee/page/1"; Log "Invalid pager link"],
      Ret (Some "http://nagi.ee"))
  /\ fetchAllImageUrls (serving brokenPager) quiet 2 "http://nagi.ee/page/1" =
     ([Fetch "http://nagi.ee/page/1"; Log "Invalid pager link";
       Fetch "http://nagi.ee"; Log "Invalid pager link";
       CloseChan; WgDone], Ret true).
Proof. repeat split; reflexivity. Qed.

(** ** Executions of the pipeline *)

(** Take the next action of a concrete execution. *)
Ltac fire :=
  eapply run_cons;
  [ solve [ econstructor; solve [ reflexivity | vm_compute; lia ] ] | ];
  cbn [setNth app].

Lemma site_run :
  run site archive (init (fetchAllImageUrls site archive 1 "seed")) siteTrace siteEnd.
Proof.
  unfold siteTrace, siteEnd, init.
  change (fetchAllImageUrls site archive 1 "seed")
    with ([Fetch "seed"; Send "item"; CloseChan; WgDone], Ret true).
  repeat fire. apply run_nil.
Qed.

(** ** The start of [main] *)

Lemma Usage_events {A} :
  @Usage A = ([Stderr ("Usage: nagibackup [<options>...] <directory> <url>" ++ newline);
               Stderr "flag.PrintDefaults"], Exit 1%Z).
Proof. reflexivity. Qed.

Lemma parseArgs_cases (cl : cmdline) (c : conf) :
  parseArgs cl c = Usage
  \/ exists config,
       parseArgs cl c = ([], Ret config)
       /\ dryrun config = flagDryrun cl
       /\ (flagDryrun cl = false -> nth_error (args cl) 0 = Some (directory config)).
Proof.
  unfold parseArgs. simpl. destruct (flagDryrun cl) eqn:Hdry.
  - destruct (args cl) as [| a0 rest]; [left; reflexivity |].
    destruct (String.eqb a0 ""); [left; reflexivity |].
    right. eexists. split; [reflexivity |]. split; [reflexivity |].
    intros H. discriminate H.
  - destruct (args cl) as [| a0 [| a1 rest]]; try (left; reflexivity).
    destruct (String.eqb a0 "" || String.eqb a1 ""); [left; reflexivity |].
    right. eexists. split; [reflexivity |]. split; reflexivity.
Qed.

(** What [main] has done when it reaches [startDownloads], or when it
    exits before. *)
Lemma mainPrelude_cases (W : world) (cl : cmdline) :
  mainPrelude W cl = Usage
  \/ (exists config,
        flagDryrun cl = true /\ dryrun config = true
        /\ mainPrelude W cl = ([], Ret config))
  \/ (exists config,
        flagDryrun cl = false /\ dryrun config = false
        /\ nth_error (args cl) 0 = Some (directory config)
        /\ ((os_MkdirAll W (directory config) 480 = None
             /\ mainPrelude W cl = ([MkdirAll (directory config) 480], Ret config))
            \/ exists err,
                 os_MkdirAll W (directory config) 480 = Some err
                 /\ mainPrelude W cl =
                    ([MkdirAll (directory config) 480; Log err], Exit 1%Z))).
Proof.
  unfold mainPrelude.
  destruct (parseArgs_cases cl (initDefaults zeroConf))
    as [Hu | (config & Hp & Hdry & Hdir)].
  - left. rewrite Hu. reflexivity.
  - right. rewrite Hp. change ([], Ret config) with (ret config).
    rewrite bind_ret_l. destruct (flagDryrun cl) eqn:Hflag.
    + left. exists config. rewrite Hdry. repeat split; reflexivity.
    + right. exists config.
      split; [reflexivity |]. split; [exact Hdry |].
      split; [apply Hdir; reflexivity |].
      rewrite Hdry. unfold createDestinationDir. rewrite bind_emit.
      destruct (os_MkdirAll W (directory config) 480) as [err |].
      * right. exists err. split; reflexivity.
      * left. split; reflexivity.
Qed.

(** C8, as the specification states it, fails on the mode: the
    directory is created with 0740 (480), which gives the group read
    access only, not with 0750 (488). *)
Lemma createDestinationDir_mode_is_not_0750 :
  mainPrelude site download2 = ([MkdirAll "out" 480], Ret archive)
  /\ groupRWX 480 = (true, false, false)
  /\ groupRWX 488 = (true, false, true).
Proof. repeat split; reflexivity. Qed.

(** C8, amended: in a run without [-dry-run] that creates a file or
    starts a transfer, the first thing the program did was a successful
    [MkdirAll] of its first argument (parents included) with mode 0740:
    read, write and execute for the owner, read only for the group,
    nothing for others. *)
Theorem destination_created_before_downloads
    (W : world) (cl : cmdline) (evs : list event) (code : option Z) :
  flagDryrun cl = false ->
  mainRun W cl evs code ->
  forall e, In e evs -> isTransfer e = true ->
  exists dir rest,
    evs = MkdirAll dir 480 :: rest
    /\ nth_error (args cl) 0 = Some dir
    /\ os_MkdirAll W dir 480 = None
    /\ ownerRWX 480 = (true, true, true)
    /\ groupRWX 480 = (true, false, false)
    /\ otherRWX 480 = (false, false, false).
Proof.
  intros Hflag Hrun e He Htransfer.
  destruct (mainPrelude_cases W cl)
    as [Hu | [(config & Hdry & _) | (config & _ & _ & Hdir & Hmk)]].
  - (* usage error: nothing but the usage text *)
    exfalso. destruct Hrun as [es c Hpre | es config fuel tr s Hpre _];
      rewrite Hu, Usage_events in Hpre; [| discriminate Hpre].
    injection Hpre as <- _. simpl in He.
    destruct He as [<- | [<- | []]]; discriminate Htransfer.
  - congruence.
  - destruct Hmk as [[Hok Hpre'] | (err & Herr & Hpre')].
    + destruct Hrun as [es c Hpre | es config' fuel tr s Hpre _];
        rewrite Hpre' in Hpre; [discriminate Hpre |].
      injection Hpre as <- <-.
      exists (directory config), (effectsOf tr).
      repeat split; try assumption; reflexivity.
    + exfalso. destruct Hrun as [es c Hpre | es config' fuel tr s Hpre _];
        rewrite Hpre' in Hpre; [| discriminate Hpre].
      injection Hpre as <- _. simpl in He.
      destruct He as [<- | [<- | []]]; discriminate Htransfer.
Qed.

Lemma site_mainRun :
  mainRun site download2 (MkdirAll "out" 480 :: effectsOf siteTrace) (Some 0%Z).
Proof.
  apply (main_started site download2 [MkdirAll "out" 480] archive 1 siteTrace siteEnd).
  - reflexivity.
  - exact site_run.
Qed.

Lemma destination_created_before_downloads_witness :
  exists dir rest,
    MkdirAll "out" 480 :: effectsOf siteTrace = MkdirAll dir 480 :: rest
    /\ nth_error (args download2) 0 = Some dir
    /\ os_MkdirAll site dir 480 = None
    /\ ownerRWX 480 = (true, true, true)
    /\ groupRWX 480 = (true, false, false)
    /\ otherRWX 480 = (false, false, false).
Proof.
  apply (destination_created_before_downloads site download2
           (MkdirAll "out" 480 :: effectsOf siteTrace) (Some 0%Z)
           eq_refl site_mainRun (Create "out/second.jpg")).
  - vm_compute. tauto.
  - reflexivity.
Defined.

(** ** The pagination walk *)

Lemma bind_split {A B} (m : M A) (f : A -> M B) :
  bind m f =
  match snd m with
  | Ret a => ((fst m ++ fst (f a))%list, snd (f a))
  | Exit c => (fst m, Exit c)
  end.
Proof.
  destruct m as [es [a | c]]; simpl; [| reflexivity].
  destruct (f a) as [es' o]. reflexivity.
Qed.

Lemma plain_bind {A B} (m : M A) (f : A -> M B) :
  Forall plain (fst m) -> (forall a, Forall plain (fst (f a))) ->
  Forall plain (fst (bind m f)).
Proof.
  intros Hm Hf. rewrite bind_split. destruct (snd m) as [a | c]; simpl.
  - apply Forall_app. split; [exact Hm | apply Hf].
  - exact Hm.
Qed.

Lemma plain_forEach {X S} (body : S -> X -> M S) (l : list X) :
  (forall s x, Forall plain (fst (body s x))) ->
  forall s, Forall plain (fst (forEach l body s)).
Proof.
  intros Hbody. induction l as [| x l IH]; intros s; simpl.
  - constructor.
  - apply plain_bind; [apply Hbody | exact IH].
Qed.

Lemma plain_when (b : bool) (m : M unit) :
  Forall plain (fst m) -> Forall plain (fst (when b m)).
Proof. destruct b; simpl; [trivial | constructor]. Qed.

Lemma plain_one (e : event) : plain e -> Forall plain [e].
Proof. intros H. constructor; [exact H | constructor]. Qed.

Section Walk.

Variable W : world.
Variable config : conf.

Lemma plain_sendHref (u : unit) (s : loc) : Forall plain (fst (sendHref config u s)).
Proof.
  unfold sendHref. destruct (Attr [s] "href").
  - apply plain_one. exact I.
  - apply plain_when. apply plain_one. exact I.
Qed.

Lemma plain_pickNext (n : string) (s : loc) : Forall plain (fst (pickNext config n s)).
Proof.
  unfold pickNext. destruct (Attr [s] "id") as [val |]; [| constructor].
  destruct (negb (Str.HasPrefix val "next_pager_")); [constructor |].
  destruct (Attr [s] "href"); simpl.
  - constructor.
  - apply plain_one. exact I.
Qed.

Lemma plain_iteration (url : string) : Forall plain (fst (iteration W config url)).
Proof.
  unfold iteration.
  apply plain_bind; [apply plain_when, plain_one; exact I | intros _].
  apply plain_bind; [apply plain_one; exact I | intros _].
  destruct (NewDocument W url) as [doc | err].
  - apply plain_bind; [apply plain_forEach, plain_sendHref | intros _].
    apply plain_bind; [apply plain_forEach, plain_pickNext | intros n].
    destruct (String.eqb url n); constructor.
  - apply plain_one. exact I.
Qed.

Lemma plain_loop (fuel : nat) : forall url, Forall plain (fst (loop W config fuel url)).
Proof.
  induction fuel as [| fuel IH]; intros url; simpl;
    destruct (String.eqb url ""); try constructor.
  apply plain_bind; [apply plain_iteration | intros [next |]].
  - apply IH.
  - constructor.
Qed.

(** An item link without href ends the process only under [-verbose]. *)
Lemma sendHref_loop_outcome (l : selection) :
  snd (forEach l (sendHref config) tt) = Ret tt
  \/ (snd (forEach l (sendHref config) tt) = Exit 1%Z /\ verbose config = true).
Proof.
  induction l as [| s l IH]; simpl; [left; reflexivity |].
  rewrite bind_split.
  assert (Hhead : snd (sendHref config tt s) = Ret tt
                  \/ (snd (sendHref config tt s) = Exit 1%Z /\ verbose config = true)).
  { unfold sendHref. destruct (Attr [s] "href") as [val |]; [left; reflexivity |].
    destruct (verbose config); [right; split | left]; reflexivity. }
  destruct Hhead as [Hhead | [Hhead Hv]]; rewrite Hhead; cbn [snd].
  - exact IH.
  - right. split; [reflexivity | exact Hv].
Qed.

(** [extractNextUrl] always returns. *)
Lemma pickNext_loop_returns (l : selection) :
  forall n, exists n', snd (forEach l (pickNext config) n) = Ret n'.
Proof.
  induction l as [| s l IH]; intros n; simpl; [exists n; reflexivity |].
  rewrite bind_split.
  assert (Hhead : exists n1, snd (pickNext config n s) = Ret n1).
  { unfold pickNext. destruct (Attr [s] "id") as [val |]; [| eexists; reflexivity].
    destruct (negb (Str.HasPrefix val "next_pager_")); [eexists; reflexivity |].
    destruct (Attr [s] "href"); eexists; reflexivity. }
  destruct Hhead as [n1 Hn1]. rewrite Hn1. simpl. apply IH.
Qed.

Lemma iteration_outcome (url next : string) :
  nextLink W config url = Some next ->
  settled config (snd (iteration W config url))
          (if String.eqb url next then None else Some next).
Proof.
  unfold nextLink, iteration, returned, settled. intros Hnext.
  rewrite bind_split.
  replace (snd (when (verbose config) (log_Print ("Fetching links from " ++ url))))
    with (Ret tt) by (destruct (verbose config); reflexivity).
  cbn [snd fst]. rewrite bind_emit. cbn [snd].
  destruct (NewDocument W url) as [doc | err]; [| discriminate Hnext].
  rewrite bind_split. unfold extractImageUrls, Each.
  destruct (sendHref_loop_outcome
              (FindDoc doc [tagClass "div" "imagelog"; tag "p"; tag "a"]))
    as [Hs | [Hs Hv]]; rewrite Hs; cbn [snd].
  - rewrite bind_split.
    destruct (snd (extractNextUrl config doc)) as [n | c]; [| discriminate Hnext].
    injection Hnext as ->. cbn [snd].
    left. destruct (String.eqb url next); reflexivity.
  - right. split; [reflexivity | exact Hv].
Qed.

Lemma loop_halts (k : nat) :
  forall seed u,
    urlAt W config k seed = Some u ->
    nextLink W config u = Some "" \/ nextLink W config u = Some u ->
    exists fuel, settled config (snd (loop W config fuel seed)) true.
Proof.
  induction k as [| k IH]; intros seed u Hat Hstop; simpl in Hat.
  - injection Hat as ->.
    destruct (String.eqb u "") eqn:Hempty.
    { exists 0. simpl. rewrite Hempty. left. reflexivity. }
    exists 2. cbn [loop]. rewrite Hempty, bind_split.
    destruct Hstop as [Hstop | Hstop];
      destruct (iteration_outcome u _ Hstop) as [Hit | [Hit Hv]];
      rewrite Hit; cbn [snd]; try (right; split; [reflexivity | exact Hv]).
    + rewrite Hempty. left. reflexivity.
    + rewrite String.eqb_refl. left. reflexivity.
  - destruct (nextLink W config seed) as [next |] eqn:Hnext; [| discriminate Hat].
    destruct (IH next u Hat Hstop) as [fuel Hfuel].
    destruct (String.eqb seed "") eqn:Hempty.
    { exists 0. simpl. rewrite Hempty. left. reflexivity. }
    exists (S fuel). cbn [loop]. rewrite Hempty, bind_split.
    destruct (iteration_outcome seed next Hnext) as [Hit | [Hit Hv]];
      rewrite Hit; cbn [snd]; try (right; split; [reflexivity | exact Hv]).
    destruct (String.eqb seed next); [left; reflexivity | exact Hfuel].
Qed.

End Walk.

(** Whatever the fuel, the walker's events are plain ones, followed by
    the two deferred calls exactly when the loop has been left. *)
Lemma fetchAllImageUrls_shape (W : world) (config : conf) (fuel : nat) (url : string) :
  exists es,
    Forall plain es
    /\ (fetchAllImageUrls W config fuel url = ((es ++ [CloseChan; WgDone])%list, Ret true)
        \/ fetchAllImageUrls W config fuel url = (es, Ret false)
        \/ exists c, fetchAllImageUrls W config fuel url = (es, Exit c)).
Proof.
  exists (fst (loop W config fuel url)).
  split; [apply plain_loop |].
  unfold fetchAllImageUrls. rewrite bind_split.
  destruct (snd (loop W config fuel url)) as [[|] | c].
  - left. reflexivity.
  - right. left. simpl. rewrite app_nil_r. reflexivity.
  - right. right. exists c. reflexivity.
Qed.

(** C4: if the page sequence of the traversal reaches a page with no
    next-page link, or with a next-page link equal to its own URL, then
    [fetchAllImageUrls] halts after finitely many iterations.  When it
    leaves the loop it closes [urls], once and as its last act on the
    channel; the only other way it halts is the [log.Fatal] of a verbose
    run, which ends the whole process. *)
Theorem fetchAllImageUrls_terminates
    (W : world) (config : conf) (seed : string) (k : nat) (u : string) :
  urlAt W config k seed = Some u ->
  nextLink W config u = Some "" \/ nextLink W config u = Some u ->
  exists fuel es,
    Forall plain es
    /\ (fetchAllImageUrls W config fuel seed =
          ((es ++ [CloseChan; WgDone])%list, Ret true)
        \/ (fetchAllImageUrls W config fuel seed = (es, Exit 1%Z)
            /\ verbose config = true)).
Proof.
  intros Hat Hstop.
  destruct (loop_halts W config k seed u Hat Hstop) as [fuel Hfuel].
  exists fuel, (fst (loop W config fuel seed)).
  split; [apply plain_loop |].
  unfold fetchAllImageUrls. rewrite bind_split.
  destruct Hfuel as [Hleft | [Hfatal Hv]].
  - left. rewrite Hleft. reflexivity.
  - right. rewrite Hfatal. split; [reflexivity | exact Hv].
Qed.

Lemma fetchAllImageUrls_terminates_witness :
  exists fuel es,
    Forall plain es
    /\ (fetchAllImageUrls site archive fuel "seed" =
          ((es ++ [CloseChan; WgDone])%list, Ret true)
        \/ (fetchAllImageUrls site archive fuel "seed" = (es, Exit 1%Z)
            /\ verbose archive = true)).
Proof.
  apply (fetchAllImageUrls_terminates site archive "seed" 0 "seed" eq_refl).
  left. reflexivity.
Defined.

(** ** The token pool *)

Lemma count_app {A} (p : A -> bool) (l l' : list A) :
  count p (l ++ l') = count p l + count p l'.
Proof. unfold count. rewrite filter_app, length_app. reflexivity. Qed.

Lemma count_one {A} (p : A -> bool) (x : A) : count p [x] = Nat.b2n (p x).
Proof. unfold count. simpl. destruct (p x); reflexivity. Qed.

Lemma count_cons {A} (p : A -> bool) (x : A) (l : list A) :
  count p (x :: l) = Nat.b2n (p x) + count p l.
Proof. unfold count. simpl. destruct (p x); reflexivity. Qed.

Lemma length_setNth {A} (i : nat) (x : A) (l : list A) :
  length (setNth i x l) = length l.
Proof.
  revert i. induction l as [| y l IH]; intros [| i]; simpl; try reflexivity.
  rewrite IH. reflexivity.
Qed.

(** Replacing one element moves a count by that element's share. *)
Lemma count_setNth {A} (p : A -> bool) (i : nat) (x y : A) (l : list A) :
  nth_error l i = Some x ->
  count p (setNth i y l) + Nat.b2n (p x) = count p l + Nat.b2n (p y).
Proof.
  revert i. induction l as [| z l IH]; intros [| i] Hi; simpl in Hi; try discriminate.
  - injection Hi as ->. simpl. rewrite !count_cons. lia.
  - simpl. rewrite !count_cons. specialize (IH i Hi). lia.
Qed.

(** Bring the counts of a moved task into the context. *)
Ltac moved_task :=
  match goal with
  | Hi : nth_error ?ts ?i = Some ?t |- context [setNth ?i ?t' ?ts] =>
      pose proof (count_setNth holding i t t' ts Hi);
      pose proof (count_setNth downloading i t t' ts Hi);
      pose proof (count_setNth unresolved i t t' ts Hi);
      pose proof (count_setNth releasing i t t' ts Hi);
      pose proof (length_setNth i t' ts)
  end.

Lemma ledger_init (config : conf) (wprog : M bool) : ledger config [] (init wprog).
Proof.
  unfold ledger, init, executing, inFlight. simpl.
  repeat split; try reflexivity; lia.
Qed.

Lemma ledger_step (W : world) (config : conf) (tr : list action)
    (s s' : state) (a : action) :
  ledger config tr s -> step W config s a s' -> ledger config (tr ++ [a]) s'.
Proof.
  unfold ledger, executing, inFlight.
  intros (Hspawn & Hres & Hexec & Hpool) Hstep.
  rewrite !count_app, !count_one.
  destruct Hstep; cbn [tasks sink sem sinkHeld isSpawn isResolve isAcquire
                        isRelease Nat.b2n] in *;
    try moved_task;
    rewrite ?length_app, ?count_app, ?count_one in *;
    cbn [length holding downloading unresolved releasing Nat.b2n] in *;
    (split; [lia |]); (split; [lia |]); (split; [lia |]);
    intros Hb; specialize (Hpool Hb); try congruence; lia.
Qed.

Lemma ledger_run (W : world) (config : conf) (s s' : state) (tr : list action) :
  run W config s tr s' ->
  forall pre, ledger config pre s -> ledger config (pre ++ tr) s'.
Proof.
  induction 1 as [s | s a s1 tr s2 Hstep _ IH]; intros pre Hpre.
  - rewrite app_nil_r. exact Hpre.
  - replace (pre ++ a :: tr)%list with ((pre ++ [a]) ++ tr)%list
      by (rewrite <- app_assoc; reflexivity).
    apply IH. eapply ledger_step; eassumption.
Qed.

(** An execution can be stopped after any of its actions. *)
Lemma run_prefix (W : world) (config : conf) (pre post : list action) :
  forall s s', run W config s (pre ++ post) s' ->
  exists mid, run W config s pre mid.
Proof.
  induction pre as [| a pre IH]; intros s s' Hrun; simpl in Hrun.
  - exists s. constructor.
  - inversion Hrun as [| s0 a0 s1 tr0 s2 Hstep Hrest]; subst.
    destruct (IH _ _ Hrest) as [mid Hmid].
    exists mid. econstructor; eassumption.
Qed.

Lemma bounded_iff (config : conf) : bounded config = true <-> (0 < parallel config)%Z.
Proof. unfold bounded. apply Z.ltb_lt. Qed.

Lemma gallery_run :
  run gallery quiet (init (fetchAllImageUrls gallery quiet 1 "seed"))
      galleryTrace galleryEnd.
Proof.
  unfold galleryTrace, galleryEnd, init.
  change (fetchAllImageUrls gallery quiet 1 "seed")
    with ([Fetch "seed"; Send "item"; CloseChan; WgDone], Ret true).
  repeat fire. apply run_nil.
Qed.

(** C1: with [parallel = N > 0], in every state of every execution the
    tasks inside [downloadImage] are among the tasks in flight, each
    task in flight holds one of the tokens in the channel, and the
    channel never holds more than [N]; every spawn was paid for by an
    acquire and a task leaves the count by its single release. *)
Theorem downloads_in_flight_bounded
    (W : world) (config : conf) (wprog : M bool) (tr : list action) (s : state) :
  (0 < parallel config)%Z ->
  run W config (init wprog) tr s ->
  executing s <= inFlight s
  /\ inFlight s + sinkHeld (sink s) = sem s
  /\ sem s <= Z.to_nat (parallel config)
  /\ count isSpawn tr + sinkHeld (sink s) = count isAcquire tr
  /\ inFlight s + count isRelease tr = count isSpawn tr.
Proof.
  intros Hpos Hrun.
  pose proof (ledger_run W config _ _ _ Hrun [] (ledger_init config wprog)) as Hl.
  simpl in Hl. destruct Hl as (Hspawn & _ & Hparts & Hpool).
  destruct (Hpool (proj2 (bounded_iff config) Hpos)) as (Hacq & Hrel & Hsem & Hcap).
  unfold capacity in Hcap. repeat split; lia.
Qed.

Lemma downloads_in_flight_bounded_witness :
  executing galleryEnd <= inFlight galleryEnd
  /\ inFlight galleryEnd + sinkHeld (sink galleryEnd) = sem galleryEnd
  /\ sem galleryEnd <= Z.to_nat (parallel quiet)
  /\ count isSpawn galleryTrace + sinkHeld (sink galleryEnd) = count isAcquire galleryTrace
  /\ inFlight galleryEnd + count isRelease galleryTrace = count isSpawn galleryTrace.
Proof.
  apply (downloads_in_flight_bounded gallery quiet
           (fetchAllImageUrls gallery quiet 1 "seed") galleryTrace galleryEnd).
  - reflexivity.
  - exact gallery_run.
Defined.

(** ** Resolution happens inside the task *)

Lemma nth_error_setNth {A} (i : nat) (x y : A) (l : list A) :
  nth_error l i = Some x -> nth_error (setNth i y l) i = Some y.
Proof.
  revert i. induction l as [| z l IH]; intros [| i] Hi; simpl in *;
    try discriminate; [reflexivity | apply IH, Hi].
Qed.

Lemma Forall_setNth {A} (P : A -> Prop) (i : nat) (y : A) (l : list A) :
  Forall P l -> P y -> Forall P (setNth i y l).
Proof.
  intros Hl Hy. revert i. induction Hl as [| z l Hz Hl IH]; intros [| i]; simpl;
    constructor; auto.
Qed.

Lemma sound_step (W : world) (config : conf) (s s' : state) (a : action) :
  Forall sound (tasks s) -> step W config s a s' -> Forall sound (tasks s').
Proof.
  intros Hs Hstep.
  destruct Hstep; cbn [tasks] in *; try assumption;
    try (apply Forall_setNth; [assumption | exact I]).
  - apply Forall_app. split; [assumption | repeat constructor].
  - apply Forall_setNth; [assumption |]. simpl. intros ->. discriminate.
Qed.

Lemma sound_run (W : world) (config : conf) (s s' : state) (tr : list action) :
  run W config s tr s' -> Forall sound (tasks s) -> Forall sound (tasks s').
Proof.
  induction 1 as [| s a s1 tr s2 Hstep _ IH]; intros Hs; [exact Hs |].
  apply IH. eapply sound_step; eassumption.
Qed.

(** C5, as the specification states it, fails: with one token and a
    detail page that shows no image, the consumer takes the token and
    spawns the task, and only then is the asset resolved, to the empty
    string; the token is held for an item without asset. *)
Lemma token_acquired_for_empty_asset :
  run gallery quiet (init (fetchAllImageUrls gallery quiet 1 "seed"))
      [Walk (Fetch "seed"); Handoff "item"; OpenItem [Fetch "item"];
       Acquire "/view?id=7&size=o"; Add; Go "http://nagi.ee/view?id=7&size=o";
       Resolve 0 [Fetch "http://nagi.ee/view?id=7&size=o"]]
      (St ([CloseChan; WgDone], Ret true) false (SEach []) [TRelease] 1 3 None)
  /\ getActualImageUrl gallery "http://nagi.ee/view?id=7&size=o" =
     ([Fetch "http://nagi.ee/view?id=7&size=o"], Ret "").
Proof. split; [exact gallery_run | reflexivity]. Qed.

(** What [downloadImages] decides for an anchor that offers the
    original size. *)
Lemma wanted_original (config : conf) (x : loc) (val : string) :
  Attr [x] "href" = Some val ->
  Str.Contains val "size=o" = true ->
  wanted config x = ([], Ret (Some val)).
Proof.
  intros Hattr Hc. unfold wanted. rewrite Hattr, Hc. reflexivity.
Qed.

(** C5, amended: at an anchor whose href contains [size=o] the consumer
    can do nothing but take a token, which it does as soon as the
    channel has room, then call [wg.Add(1)] and start the task, all
    without looking at the asset.  The asset is resolved inside the
    task, so at every moment of an execution there are at most as many
    resolutions as spawns and as many spawns as acquires.  A task enters
    [downloadImage] only with a non-empty asset URL, and a task whose
    asset resolves empty goes straight to giving back the token it
    holds. *)
Theorem token_taken_before_resolution
    (W : world) (config : conf) (wprog : M bool) (tr : list action) (s : state) :
  (0 < parallel config)%Z ->
  run W config (init wprog) tr s ->
  (forall x val rest w cl ts sm g,
      Attr [x] "href" = Some val ->
      Str.Contains val "size=o" = true ->
      (forall a s',
          step W config (St w cl (SEach (x :: rest)) ts sm g None) a s' ->
          sink s' = SEach (x :: rest)
          \/ (a = Acquire val /\ sm < Z.to_nat (parallel config)
              /\ s' = St w cl (SToken val rest) ts (S sm) g None))
      /\ (forall a s',
            step W config (St w cl (SToken val rest) ts sm g None) a s' ->
            sink s' = SToken val rest
            \/ (a = Add /\ s' = St w cl (SAdded val rest) ts sm (S g) None))
      /\ (forall a s',
            step W config (St w cl (SAdded val rest) ts sm g None) a s' ->
            sink s' = SAdded val rest
            \/ (a = Go (defaultDomain config ++ val)
                /\ s' = St w cl (SEach rest)
                           (ts ++ [TStart (defaultDomain config ++ val)])%list
                           sm g None))
      /\ (sm < Z.to_nat (parallel config) ->
          run W config (St w cl (SEach (x :: rest)) ts sm g None)
              [Acquire val; Add; Go (defaultDomain config ++ val)]
              (St w cl (SEach rest)
                  (ts ++ [TStart (defaultDomain config ++ val)])%list
                  (S sm) (S g) None)))
  /\ (forall pre post, tr = (pre ++ post)%list ->
        count isResolve pre <= count isSpawn pre
        /\ count isSpawn pre <= count isAcquire pre)
  /\ (forall i imageUrl,
        nth_error (tasks s) i = Some (TDownload imageUrl) -> imageUrl <> "")
  /\ (forall i u es s',
        nth_error (tasks s) i = Some (TStart u) ->
        returned (getActualImageUrl W u) = Some "" ->
        step W config s (Resolve i es) s' ->
        nth_error (tasks s') i = Some TRelease /\ sem s' = sem s).
Proof.
  intros Hpos Hrun. pose proof (proj2 (bounded_iff config) Hpos) as Hb.
  split; [| split; [| split]].
  - intros x val rest w cl ts sm g Hattr Hc.
    pose proof (wanted_original config x val Hattr Hc) as Hw.
    split; [| split; [| split]].
    + intros a s' Hstep.
      inversion Hstep; subst; cbn [sink]; try (left; reflexivity); try congruence.
      right.
      match goal with H : wanted config x = _ |- _ =>
        rewrite Hw in H; injection H as <- end.
      split; [reflexivity |]. split; [assumption | reflexivity].
    + intros a s' Hstep.
      inversion Hstep; subst; cbn [sink]; try (left; reflexivity).
      right. split; reflexivity.
    + intros a s' Hstep.
      inversion Hstep; subst; cbn [sink]; try (left; reflexivity).
      right. split; reflexivity.
    + intros Hroom.
      econstructor; [apply step_acquire; assumption |].
      econstructor; [apply step_add |].
      econstructor; [apply step_go | constructor].
  - intros pre post ->.
    destruct (run_prefix W config pre post _ _ Hrun) as [mid Hmid].
    pose proof (ledger_run W config _ _ _ Hmid [] (ledger_init config wprog)) as Hl.
    simpl in Hl. destruct Hl as (Hspawn & Hres & _ & Hpool).
    destruct (Hpool Hb) as (Hacq & _).
    lia.
  - intros i imageUrl Hi.
    assert (Hs : Forall sound (tasks s)).
    { eapply sound_run; [exact Hrun | constructor]. }
    rewrite Forall_forall in Hs.
    apply (Hs (TDownload imageUrl)). eapply nth_error_In, Hi.
  - intros i u es s' Hi Hempty Hstep.
    inversion Hstep; subst; cbn [tasks sem] in *.
    + exfalso.
      match goal with
      | Hn : nth_error _ i = Some (TStart ?u'),
        Hg : getActualImageUrl W ?u' = _ |- _ =>
          rewrite Hi in Hn; injection Hn as <-;
          unfold returned in Hempty; rewrite Hg in Hempty
      end.
      simpl in Hempty. injection Hempty as ->. discriminate.
    + split; [eapply nth_error_setNth; eassumption | reflexivity].
Qed.

Lemma gallery_run_spawned :
  run gallery quiet (init (fetchAllImageUrls gallery quiet 1 "seed"))
      (firstn 6 galleryTrace) gallerySpawned.
Proof.
  unfold galleryTrace, gallerySpawned, init. cbn [firstn].
  change (fetchAllImageUrls gallery quiet 1 "seed")
    with ([Fetch "seed"; Send "item"; CloseChan; WgDone], Ret true).
  repeat fire. apply run_nil.
Qed.

Lemma gallery_resolves_empty :
  step gallery quiet gallerySpawned
       (Resolve 0 [Fetch "http://nagi.ee/view?id=7&size=o"]) galleryEnd.
Proof.
  unfold gallerySpawned, galleryEnd.
  eapply (step_resolve_empty gallery quiet 0 "http://nagi.ee/view?id=7&size=o");
    reflexivity.
Qed.

Lemma site_run_resolved :
  run site archive (init (fetchAllImageUrls site archive 1 "seed"))
      (firstn 7 siteTrace) siteResolved.
Proof.
  unfold siteTrace, siteResolved, init. cbn [firstn].
  change (fetchAllImageUrls site archive 1 "seed")
    with ([Fetch "seed"; Send "item"; CloseChan; WgDone], Ret true).
  repeat fire. apply run_nil.
Qed.

Lemma token_taken_before_resolution_witness :
  (* the anchor of [itemPage]: token, wg.Add, go, in this order *)
  run gallery quiet
      (St ([CloseChan; WgDone], Ret true) false
          (SEach (FindDoc itemPage [byId "zoom"; tag "ul"; tag "li"; tag "a"]))
          [] 0 2 None)
      [Acquire "/view?id=7&size=o"; Add; Go "http://nagi.ee/view?id=7&size=o"]
      gallerySpawned
  (* counted over the whole of [galleryTrace] *)
  /\ (count isResolve galleryTrace <= count isSpawn galleryTrace
      /\ count isSpawn galleryTrace <= count isAcquire galleryTrace)
  (* the task of [siteResolved] is inside downloadImage *)
  /\ "second.jpg" <> ""
  (* the task of [gallerySpawned] resolves to the empty string *)
  /\ (nth_error (tasks galleryEnd) 0 = Some TRelease
      /\ sem galleryEnd = sem gallerySpawned).
Proof.
  pose proof (token_taken_before_resolution gallery quiet
                (fetchAllImageUrls gallery quiet 1 "seed") galleryTrace galleryEnd
                eq_refl gallery_run) as (Hsink & Hcount & _ & _).
  pose proof (token_taken_before_resolution gallery quiet
                (fetchAllImageUrls gallery quiet 1 "seed")
                (firstn 6 galleryTrace) gallerySpawned
                eq_refl gallery_run_spawned) as (_ & _ & _ & Hempty).
  pose proof (token_taken_before_resolution site archive
                (fetchAllImageUrls site archive 1 "seed")
                (firstn 7 siteTrace) siteResolved
                eq_refl site_run_resolved) as (_ & _ & Hdownload & _).
  split; [| split; [| split]].
  - destruct (Hsink
                (nth 0 (FindDoc itemPage [byId "zoom"; tag "ul"; tag "li"; tag "a"])
                     (el "a" [], []))
                "/view?id=7&size=o" [] ([CloseChan; WgDone], Ret true) false [] 0 2
                eq_refl eq_refl) as (_ & _ & _ & Hgo).
    apply Hgo. vm_compute. lia.
  - apply (Hcount galleryTrace []). symmetry. apply app_nil_r.
  - apply (Hdownload 0 "second.jpg"). reflexivity.
  - apply (Hempty 0 "http://nagi.ee/view?id=7&size=o"
                  [Fetch "http://nagi.ee/view?id=7&size=o"] galleryEnd).
    + reflexivity.
    + reflexivity.
    + exact gallery_resolves_empty.
Defined.

(** ** The dry run *)

Lemma effectsOf_app (tr tr' : list action) :
  effectsOf (tr ++ tr') = (effectsOf tr ++ effectsOf tr')%list.
Proof. apply flat_map_app. Qed.

Lemma stdoutOf_app (es es' : list event) :
  stdoutOf (es ++ es') = (stdoutOf es ++ stdoutOf es')%list.
Proof. apply flat_map_app. Qed.

Lemma received_app (tr tr' : list action) :
  received (tr ++ tr') = (received tr ++ received tr')%list.
Proof. apply flat_map_app. Qed.

Lemma sendsOf_app (es es' : list event) :
  sendsOf (es ++ es') = (sendsOf es ++ sendsOf es')%list.
Proof. apply flat_map_app. Qed.

Lemma doneLast_tail (e : event) (es : list event) : doneLast (e :: es) -> doneLast es.
Proof.
  intros H pre post Heq. apply (H (e :: pre) post). rewrite Heq. reflexivity.
Qed.

Lemma doneLast_head (es : list event) : doneLast (WgDone :: es) -> es = [].
Proof. intros H. apply (H [] es). reflexivity. Qed.

Lemma doneLast_walker (es : list event) :
  Forall plain es -> doneLast (es ++ [CloseChan; WgDone]).
Proof.
  intros Hes. induction Hes as [| e es He _ IH]; intros pre post Heq.
  - destruct pre as [| x [| y pre]]; simpl in Heq.
    + discriminate Heq.
    + injection Heq as _ <-. reflexivity.
    + injection Heq as _ _ Heq. destruct pre; discriminate Heq.
  - destruct pre as [| x pre]; simpl in Heq.
    + injection Heq as -> _. destruct He.
    + injection Heq as _ Heq. apply (IH pre post Heq).
Qed.

Lemma doneLast_plain (es : list event) : Forall plain es -> doneLast es.
Proof.
  intros Hes pre post Heq. subst es. apply Forall_app in Hes.
  destruct Hes as [_ Hes]. inversion Hes as [| x l Hx]. destruct Hx.
Qed.

Lemma plain_walkerEvent (es : list event) :
  Forall plain es -> Forall walkerEvent es.
Proof. apply Forall_impl. intros e He. left. exact He. Qed.

Lemma plain_not_sync_harmless (e : event) :
  walkerEvent e -> isSync e = false -> harmless e.
Proof.
  intros [He | [-> | ->]] Hs; try discriminate Hs.
  destruct e; try destruct He; split; reflexivity.
Qed.

Lemma dryBooks_step (W : world) (config : conf) (wprog : M bool)
    (tr : list action) (s s' : state) (a : action) :
  dryrun config = true ->
  snd wprog <> Exit 0%Z ->
  dryBooks wprog tr s -> step W config s a s' -> dryBooks wprog (tr ++ [a]) s'.
Proof.
  unfold dryBooks.
  intros Hdry Hcode (Hts & Hrep & Hev & Hout & Hharm & Hstd & Hsends & Hdone
                     & Hwg & Hclosed & Hexit) Hstep.
  rewrite effectsOf_app, stdoutOf_app, received_app, count_app, count_one, Forall_app.
  destruct Hstep;
    cbn [tasks sink walker closed exited wg fst snd reporting ended owed rangeOver
         effectsOf effects flat_map stdoutOf received isWalkerDone Nat.b2n app
         printLine emit] in *;
    try congruence;
    try (subst; match goal with H : nth_error [] ?i = _ |- _ =>
           destruct i; discriminate H end);
    rewrite ?app_nil_r, ?Nat.add_0_r in *;
    repeat match goal with |- _ /\ _ => split end;
    try assumption; try reflexivity; try lia; try (intros; congruence);
    try solve [constructor];
    try solve [apply Forall_inv_tail in Hev; exact Hev];
    try solve [repeat constructor];
    try solve [constructor; [| constructor];
               apply plain_not_sync_harmless; [apply (Forall_inv Hev) | assumption]];
    try solve [destruct Hdone as [[Hc Hl] | [Hc Hl]];
               [ left; split; [exact Hc | apply (doneLast_tail _ _ Hl)]
               | discriminate Hl ]].
  - (* a plain event prints nothing *)
    destruct (Forall_inv Hev) as [He | [-> | ->]]; try discriminate H.
    destruct e; try destruct He; rewrite app_nil_r; exact Hstd.
  - (* ... and sends nothing *)
    destruct e; try discriminate H; exact Hsends.
  - (* the URL handed over is owed a line *)
    rewrite map_app, <- Hstd. reflexivity.
  - rewrite <- app_assoc. exact Hsends.
  - (* wg.Done() is the walker's last act *)
    destruct Hdone as [[Hc Hl] | [Hc Hl]]; [| discriminate Hl].
    right. split; [lia | apply doneLast_head, Hl].
Qed.


Lemma dryBooks_run (W : world) (config : conf) (wprog : M bool)
    (s s' : state) (tr : list action) :
  dryrun config = true ->
  snd wprog <> Exit 0%Z ->
  run W config s tr s' ->
  forall pre, dryBooks wprog pre s -> dryBooks wprog (pre ++ tr) s'.
Proof.
  intros Hdry Hcode. induction 1 as [s | s a s1 tr s2 Hstep _ IH]; intros pre Hpre.
  - rewrite app_nil_r. exact Hpre.
  - replace (pre ++ a :: tr)%list with ((pre ++ [a]) ++ tr)%list
      by (rewrite <- app_assoc; reflexivity).
    apply IH. eapply dryBooks_step; eassumption.
Qed.

(** The only exit status the walker can produce is that of [log.Fatal]. *)
Lemma iteration_exit_code (W : world) (config : conf) (url : string) (c : Z) :
  snd (iteration W config url) = Exit c -> c = 1%Z.
Proof.
  unfold iteration. rewrite bind_split.
  replace (snd (when (verbose config) (log_Print ("Fetching links from " ++ url))))
    with (Ret tt) by (destruct (verbose config); reflexivity).
  cbn [snd fst]. rewrite bind_emit. cbn [snd].
  destruct (NewDocument W url) as [doc | err].
  - rewrite bind_split. unfold extractImageUrls, Each.
    destruct (sendHref_loop_outcome config
                (FindDoc doc [tagClass "div" "imagelog"; tag "p"; tag "a"]))
      as [Hs | [Hs _]]; rewrite Hs; cbn [snd].
    + rewrite bind_split. unfold extractNextUrl, Each.
      destruct (pickNext_loop_returns config
                  (FindDoc doc [tagClass "div" "pager"; tagClass "a" "navi"]) "")
        as [n Hn].
      rewrite Hn. cbn [snd]. destruct (String.eqb url n); discriminate.
    + intros H. injection H as <-. reflexivity.
  - intros H. injection H as <-. reflexivity.
Qed.

Lemma loop_exit_code (W : world) (config : conf) (fuel : nat) :
  forall url c, snd (loop W config fuel url) = Exit c -> c = 1%Z.
Proof.
  induction fuel as [| fuel IH]; intros url c; simpl;
    destruct (String.eqb url ""); try discriminate.
  rewrite bind_split.
  destruct (snd (iteration W config url)) as [[next |] | c'] eqn:Hit; cbn [snd].
  - apply IH.
  - discriminate.
  - intros H. injection H as <-. eapply iteration_exit_code, Hit.
Qed.

Lemma fetchAllImageUrls_exit_code (W : world) (config : conf) (fuel : nat) (url : string) :
  snd (fetchAllImageUrls W config fuel url) <> Exit 0%Z.
Proof.
  unfold fetchAllImageUrls. rewrite bind_split.
  destruct (snd (loop W config fuel url)) as [[|] | c] eqn:Hl; cbn [snd];
    try discriminate.
  apply loop_exit_code in Hl. subst c. discriminate.
Qed.

Lemma dryBooks_init (W : world) (config : conf) (fuel : nat) (url : string) :
  dryBooks (fetchAllImageUrls W config fuel url) []
           (init (fetchAllImageUrls W config fuel url)).
Proof.
  destruct (fetchAllImageUrls_shape W config fuel url) as (es & Hes & Hshape).
  assert (Hev : Forall walkerEvent (fst (fetchAllImageUrls W config fuel url))
                /\ doneLast (fst (fetchAllImageUrls W config fuel url))).
  { destruct Hshape as [-> | [-> | [c ->]]]; cbn [fst].
    - split; [| apply doneLast_walker, Hes].
      apply Forall_app. split; [apply plain_walkerEvent, Hes |].
      repeat constructor; unfold walkerEvent; tauto.
    - split; [apply plain_walkerEvent, Hes | apply doneLast_plain, Hes].
    - split; [apply plain_walkerEvent, Hes | apply doneLast_plain, Hes]. }
  destruct Hev as [Hev Hlast].
  unfold dryBooks, init. cbn.
  repeat split; try assumption; try reflexivity; try discriminate.
  - constructor.
  - left. split; [reflexivity | exact Hlast].
Qed.

Lemma run_app (W : world) (config : conf) (s s' s'' : state) (tr tr' : list action) :
  run W config s tr s' -> run W config s' tr' s'' -> run W config s (tr ++ tr') s''.
Proof.
  induction 1 as [| s a s1 tr s2 Hstep _ IH]; intros Hrest; simpl.
  - exact Hrest.
  - econstructor; [exact Hstep | apply IH, Hrest].
Qed.

(** In a dry run the two goroutines can work through any stretch of
    plain walker events, printing one line for each URL sent. *)
Lemma dry_drain (W : world) (config : conf) (es rest : list event)
    (o : outcome bool) (sm g : nat) :
  dryrun config = true ->
  Forall plain es ->
  exists tr,
    run W config (St ((es ++ rest)%list, o) false SRange [] sm g None) tr
        (St (rest, o) false SRange [] sm g None)
    /\ stdoutOf (effectsOf tr) = map (fun u => u ++ newline) (sendsOf es).
Proof.
  intros Hdry Hes. induction Hes as [| e es He _ (tr & Hrun & Hout)].
  - exists []. split; [constructor | reflexivity].
  - destruct e; try destruct He.
    + exists (Walk (Log msg) :: tr). split; [| exact Hout].
      econstructor; [| exact Hrun]. apply step_walk. reflexivity.
    + exists (Walk (Fetch u) :: tr). split; [| exact Hout].
      econstructor; [| exact Hrun]. apply step_walk. reflexivity.
    + exists (Handoff u :: PrintLine (fst (printLine u)) :: tr). split.
      * econstructor; [apply step_handoff |].
        econstructor; [apply step_print, Hdry | exact Hrun].
      * simpl. rewrite <- Hout. reflexivity.
Qed.

Lemma dry_run_completes (W : world) (config : conf) (es : list event) :
  dryrun config = true ->
  Forall plain es ->
  exists tr s,
    run W config (init ((es ++ [CloseChan; WgDone])%list, Ret true)) tr s
    /\ exited s = Some 0%Z
    /\ stdoutOf (effectsOf tr) = map (fun u => u ++ newline) (sendsOf es).
Proof.
  intros Hdry Hes.
  destruct (dry_drain W config es [CloseChan; WgDone] (Ret true) 0 2 Hdry Hes)
    as (tr & Hrun & Hout).
  exists (tr ++ [CloseUrls; WalkerDone; RangeEnd; SinkDone; MainExit])%list.
  eexists. split; [| split].
  - eapply run_app; [exact Hrun |]. repeat fire. apply run_nil.
  - reflexivity.
  - rewrite effectsOf_app, stdoutOf_app, Hout. apply app_nil_r.
Qed.

Lemma printImages_lines (urls : list string) :
  printImages urls =
  ((map (fun u => Stdout (u ++ newline)) urls ++ [WgDone])%list, Ret tt).
Proof.
  unfold printImages. rewrite bind_split.
  assert (H : forEach urls (fun (_ : unit) u => printLine u) tt =
              (map (fun u => Stdout (u ++ newline)) urls, Ret tt)).
  { induction urls as [| u urls IH]; cbn [forEach map]; [reflexivity |].
    unfold printLine at 1. rewrite bind_emit, IH. reflexivity. }
  rewrite H. reflexivity.
Qed.

Lemma ended_SEnd (k : consumer) : ended k = 1 -> k = SEnd.
Proof. destruct k; simpl; intros H; try discriminate H; reflexivity. Qed.

(** C9: in a dry run the program never creates the directory and never
    creates a file or starts a transfer; [printImages] writes one line
    per URL it receives, verbatim and in order; exit status 0 is only
    reached with [urls] closed and a line printed for every URL the
    walker sent; and a walk that leaves its loop has a run that reaches
    it. *)
Theorem dry_run_only_reports (W : world) (cl : cmdline) :
  flagDryrun cl = true ->
  Forall harmless (fst (mainPrelude W cl))
  /\ (forall urls,
        printImages urls =
        ((map (fun u => Stdout (u ++ newline)) urls ++ [WgDone])%list, Ret tt))
  /\ (forall config fuel,
        returned (mainPrelude W cl) = Some config ->
        (forall tr s,
            run W config (init (fetchAllImageUrls W config fuel (url config))) tr s ->
            tasks s = []
            /\ Forall harmless (effectsOf tr)
            /\ (stdoutOf (effectsOf tr) ++ owed (sink s))%list
               = map (fun u => u ++ newline) (received tr)
            /\ (exited s = Some 0%Z ->
                closed s = true
                /\ received tr =
                   sendsOf (fst (fetchAllImageUrls W config fuel (url config)))
                /\ stdoutOf (effectsOf tr) =
                   map (fun u => u ++ newline)
                       (sendsOf (fst (fetchAllImageUrls W config fuel (url config))))))
        /\ (snd (fetchAllImageUrls W config fuel (url config)) = Ret true ->
            exists tr s,
              run W config (init (fetchAllImageUrls W config fuel (url config))) tr s
              /\ exited s = Some 0%Z)).
Proof.
  intros Hflag.
  destruct (mainPrelude_cases W cl)
    as [Hu | [(config & _ & Hdry & Hpre) | (config & Habs & _)]];
    [| | congruence].
  - (* usage error *)
    rewrite Hu. split; [| split].
    + rewrite Usage_events. repeat constructor.
    + exact printImages_lines.
    + intros config fuel H. discriminate H.
  - rewrite Hpre. split; [constructor | split; [exact printImages_lines |]].
    intros config' fuel H. injection H as <-. split.
    + intros tr s Hrun.
      pose proof (dryBooks_run W config _ _ _ tr Hdry
                    (fetchAllImageUrls_exit_code W config fuel (url config))
                    Hrun [] (dryBooks_init W config fuel (url config))) as Hb.
      simpl in Hb.
      destruct Hb as (Hts & _ & _ & _ & Hharm & Hstd & Hsends & Hdone
                      & Hwg & Hclosed & Hexit).
      split; [exact Hts |]. split; [exact Hharm |]. split; [exact Hstd |].
      intros He. specialize (Hexit He).
      assert (Hend : ended (sink s) = 1)
        by (destruct (sink s); simpl in *;
            destruct Hdone as [[Hc _] | [Hc _]]; lia).
      assert (Hw : fst (walker s) = [])
        by (destruct Hdone as [[Hc _] | [_ Hw]]; [lia | exact Hw]).
      rewrite Hw, app_nil_r in Hsends.
      rewrite (ended_SEnd _ Hend), app_nil_r in Hstd.
      split; [| split].
      * apply Hclosed. rewrite (ended_SEnd _ Hend). reflexivity.
      * symmetry. exact Hsends.
      * rewrite Hsends. exact Hstd.
    + intros Hleft.
      destruct (fetchAllImageUrls_shape W config fuel (url config))
        as (es & Hes & [Hsh | [Hsh | [c Hsh]]]);
        rewrite Hsh in Hleft |- *; try discriminate Hleft.
      destruct (dry_run_completes W config es Hdry Hes) as (tr & s & Hrun & He & _).
      exists tr, s. split; assumption.
Qed.

Lemma site_dry_run :
  run site rehearsal
      (init (fetchAllImageUrls site rehearsal 1 "seed")) dryTrace dryEnd.
Proof.
  unfold dryTrace, dryEnd, init.
  change (fetchAllImageUrls site rehearsal 1 "seed")
    with ([Fetch "seed"; Send "item"; CloseChan; WgDone], Ret true).
  repeat fire. apply run_nil.
Qed.

Lemma dry_run_only_reports_witness :
  Forall harmless (fst (mainPrelude site dry1))
  /\ stdoutOf (effectsOf dryTrace) = ["item" ++ newline].
Proof.
  destruct (dry_run_only_reports site dry1 eq_refl) as (Hpre & _ & Hrun).
  split; [exact Hpre |].
  destruct (Hrun rehearsal 1 eq_refl) as [Hsafe _].
  destruct (Hsafe dryTrace dryEnd site_dry_run) as (_ & _ & _ & Hexit).
  destruct (Hexit eq_refl) as (_ & _ & Hout).
  exact Hout.
Defined.

(** ** Further properties: the command line *)

(** X1: [parseArgs] prints the usage text and exits with status 1
    exactly when a positional argument it needs is missing or empty: the
    URL in a dry run, the directory and the URL otherwise. *)
Theorem parseArgs_usage_iff (cl : cmdline) (c : conf) :
  parseArgs cl c = Usage <->
  (if flagDryrun cl
   then nth_error (args cl) 0 = None \/ nth_error (args cl) 0 = Some ""
   else length (args cl) < 2
        \/ nth_error (args cl) 0 = Some "" \/ nth_error (args cl) 1 = Some "").
Proof.
  unfold parseArgs. cbn [dryrun]. rewrite Usage_events.
  destruct (flagDryrun cl).
  - destruct (args cl) as [| a0 rest]; cbn [nth_error].
    + split; [left; reflexivity | reflexivity].
    + destruct (String.eqb_spec a0 "") as [-> | Hne].
      * split; [right; reflexivity | reflexivity].
      * split; [discriminate |].
        intros [H | H]; [discriminate H | injection H as H; contradiction].
  - destruct (args cl) as [| a0 [| a1 rest]]; cbn [nth_error length].
    + split; [left; lia | reflexivity].
    + split; [left; lia | reflexivity].
    + destruct (String.eqb_spec a0 "") as [-> | Hne0]; cbn [orb].
      * split; [right; left; reflexivity | reflexivity].
      * destruct (String.eqb_spec a1 "") as [-> | Hne1].
        -- split; [right; right; reflexivity | reflexivity].
        -- split; [discriminate |].
           intros [H | [H | H]]; [lia | |]; injection H as H; contradiction.
Qed.

(** X2: when [main] reaches [startDownloads] the configuration holds a
    non-empty seed URL, the base domain [http://nagi.ee], the flags as
    given with [parallel] defaulting to 4, and as directory the first
    argument, non-empty, or nothing at all in a dry run, where the URL
    is the first argument instead of the second. *)
Theorem mainPrelude_config (W : world) (cl : cmdline) (es : list event) (config : conf) :
  mainPrelude W cl = (es, Ret config) ->
  url config <> ""
  /\ defaultDomain config = "http://nagi.ee"
  /\ verbose config = flagVerbose cl
  /\ dryrun config = flagDryrun cl
  /\ parallel config = match flagParallel cl with Some n => n | None => 4%Z end
  /\ (if flagDryrun cl
      then directory config = "" /\ nth_error (args cl) 0 = Some (url config)
      else directory config <> ""
           /\ nth_error (args cl) 0 = Some (directory config)
           /\ nth_error (args cl) 1 = Some (url config)).
Proof.
  unfold mainPrelude, parseArgs. cbn [dryrun initDefaults zeroConf directory url
    verbose size parallel defaultDomain].
  destruct (flagDryrun cl) eqn:Hdry.
  - destruct (args cl) as [| a0 rest]; [rewrite Usage_events; discriminate |].
    destruct (String.eqb_spec a0 "") as [-> | Hne];
      [rewrite Usage_events; discriminate |].
    cbn. intros H. injection H as _ <-. cbn.
    repeat split; try reflexivity; assumption.
  - destruct (args cl) as [| a0 [| a1 rest]]; try (rewrite Usage_events; discriminate).
    destruct (String.eqb_spec a0 "") as [-> | Hne0]; cbn [orb];
      [rewrite Usage_events; discriminate |].
    destruct (String.eqb_spec a1 "") as [-> | Hne1];
      [rewrite Usage_events; discriminate |].
    change (bind (A := conf) (B := conf) ([], Ret ?c) ?f) with (f c).
    cbn [bind ret dryrun]. unfold createDestinationDir. cbn [directory].
    rewrite bind_emit.
    destruct (os_MkdirAll W a0 480); cbn; intros H; [discriminate H |].
    injection H as _ <-. cbn.
    repeat split; try reflexivity; assumption.
Qed.

Lemma mainPrelude_config_witness :
  url archive <> ""
  /\ defaultDomain archive = "http://nagi.ee"
  /\ verbose archive = flagVerbose download2
  /\ dryrun archive = flagDryrun download2
  /\ parallel archive = match flagParallel download2 with Some n => n | None => 4%Z end
  /\ (if flagDryrun download2
      then directory archive = "" /\ nth_error (args download2) 0 = Some (url archive)
      else directory archive <> ""
           /\ nth_error (args download2) 0 = Some (directory archive)
           /\ nth_error (args download2) 1 = Some (url archive)).
Proof.
  apply (mainPrelude_config site download2 [MkdirAll "out" 480] archive).
  reflexivity.
Defined.

(** X3: when the destination directory cannot be created the program
    logs the error and exits with status 1 before any goroutine starts:
    a run shows the usage text or the failed [MkdirAll] and its log
    line, and nothing else. *)
Theorem mkdir_failure_ends_run
    (W : world) (cl : cmdline) (evs : list event) (code : option Z)
    (dir err : string) :
  flagDryrun cl = false ->
  nth_error (args cl) 0 = Some dir ->
  os_MkdirAll W dir 480 = Some err ->
  mainRun W cl evs code ->
  code = Some 1%Z
  /\ (evs = fst (@Usage conf) \/ evs = [MkdirAll dir 480; Log err]).
Proof.
  intros Hflag Hdir Hfail Hrun.
  destruct (mainPrelude_cases W cl)
    as [Hu | [(config & Hdry & _) | (config & _ & _ & Hdir' & Hmk)]];
    [| congruence |].
  - destruct Hrun as [es c Hpre | es config fuel tr s Hpre _];
      rewrite Hu in Hpre; rewrite Usage_events in Hpre; [| discriminate Hpre].
    injection Hpre as <- <-. split; [reflexivity | left; reflexivity].
  - rewrite Hdir in Hdir'. injection Hdir' as ->.
    destruct Hmk as [[Hok _] | (err' & Herr & Hpre')]; [congruence |].
    rewrite Hfail in Herr. injection Herr as <-.
    destruct Hrun as [es c Hpre | es config' fuel tr s Hpre _];
      rewrite Hpre' in Hpre; [| discriminate Hpre].
    injection Hpre as <- <-. split; [reflexivity | right; reflexivity].
Qed.

Lemma sealed_mainRun :
  mainRun sealed download2 [MkdirAll "out" 480; Log "read-only file system"] (Some 1%Z).
Proof. apply main_early. reflexivity. Qed.

Lemma mkdir_failure_ends_run_witness :
  Some 1%Z = Some 1%Z
  /\ ([MkdirAll "out" 480; Log "read-only file system"] = fst (@Usage conf)
      \/ [MkdirAll "out" 480; Log "read-only file system"]
         = [MkdirAll "out" 480; Log "read-only file system"]).
Proof.
  apply (mkdir_failure_ends_run sealed download2 _ _ "out" "read-only file system"
           eq_refl eq_refl eq_refl sealed_mainRun).
Defined.

(** ** Further properties: reading listing pages *)

Lemma sendHref_all (config : conf) (sel : selection) :
  allHaveHref sel = true ->
  forEach sel (sendHref config) tt = (map Send (hrefs sel), Ret tt).
Proof.
  induction sel as [| s sel IH]; intros Hall; [reflexivity |].
  unfold allHaveHref in Hall. cbn [forallb] in Hall. fold (allHaveHref sel) in Hall.
  cbn [forEach hrefs flat_map]. unfold sendHref at 1.
  destruct (Attr [s] "href") as [v |]; [| discriminate Hall].
  rewrite bind_emit, (IH Hall). reflexivity.
Qed.

Lemma sendHref_quiet (config : conf) (sel : selection) :
  verbose config = false ->
  forEach sel (sendHref config) tt = (map Send (hrefs sel), Ret tt).
Proof.
  intros Hv. induction sel as [| s sel IH]; [reflexivity |].
  cbn [forEach hrefs flat_map]. unfold sendHref at 1.
  destruct (Attr [s] "href") as [v |].
  - rewrite bind_emit, IH. reflexivity.
  - rewrite Hv. cbn [when]. rewrite bind_ret_l. exact IH.
Qed.

Lemma sendHref_gap (config : conf) (sel : selection) :
  verbose config = true ->
  allHaveHref sel = false ->
  forEach sel (sendHref config) tt =
  ((map Send (hrefsBeforeGap sel) ++ [Log "Href not found"])%list, Exit 1%Z).
Proof.
  intros Hv. induction sel as [| s sel IH]; intros Hgap; [discriminate Hgap |].
  unfold allHaveHref in Hgap. cbn [forallb] in Hgap. fold (allHaveHref sel) in Hgap.
  cbn [forEach hrefsBeforeGap]. unfold sendHref at 1.
  destruct (Attr [s] "href") as [v |].
  - rewrite bind_emit, (IH Hgap). reflexivity.
  - rewrite Hv. reflexivity.
Qed.

(** X4: [extractImageUrls] sends the hrefs of the item links in document
    order.  Without [-verbose], or when every item link has an href, it
    sends all of them and returns; with [-verbose] and a link without
    href it sends those before that link, logs and exits with status 1. *)
Theorem extractImageUrls_sends (config : conf) (doc : document) :
  let links := FindDoc doc [tagClass "div" "imagelog"; tag "p"; tag "a"] in
  (verbose config = false \/ allHaveHref links = true ->
     extractImageUrls config doc = (map Send (hrefs links), Ret tt))
  /\ (verbose config = true -> allHaveHref links = false ->
        extractImageUrls config doc =
        ((map Send (hrefsBeforeGap links) ++ [Log "Href not found"])%list, Exit 1%Z)).
Proof.
  intros links. unfold extractImageUrls, Each. fold links. split.
  - intros [Hv | Hall]; [apply sendHref_quiet, Hv | apply sendHref_all, Hall].
  - apply sendHref_gap.
Qed.

Lemma extractImageUrls_sends_witness :
  extractImageUrls quiet listing = ([Send "/i1"; Send "/i2"], Ret tt)
  /\ extractImageUrls chatty listing =
     ([Send "/i1"; Log "Href not found"], Exit 1%Z).
Proof.
  split.
  - apply (proj1 (extractImageUrls_sends quiet listing)). left. reflexivity.
  - apply (proj2 (extractImageUrls_sends chatty listing)); reflexivity.
Defined.

Lemma pickNext_other (config : conf) (n : string) (s : loc) :
  isNextPager s = false -> pickNext config n s = ([], Ret n).
Proof.
  unfold isNextPager, pickNext. destruct (Attr [s] "id") as [val |]; [| reflexivity].
  intros ->. reflexivity.
Qed.

Lemma pickNext_pager (config : conf) (n : string) (s : loc) :
  isNextPager s = true ->
  returned (pickNext config n s) = Some (defaultDomain config ++ hrefOrEmpty s).
Proof.
  unfold isNextPager, pickNext, hrefOrEmpty.
  destruct (Attr [s] "id") as [val |]; [| intros H; discriminate H].
  intros ->. cbn [negb]. destruct (Attr [s] "href"); reflexivity.
Qed.

Lemma pickNext_loop_others (config : conf) (sel : selection) (n : string) :
  Forall (fun t => isNextPager t = false) sel ->
  forEach sel (pickNext config) n = ([], Ret n).
Proof.
  intros H. induction H as [| s sel Hs _ IH]; [reflexivity |].
  cbn [forEach]. rewrite (pickNext_other config n s Hs).
  change ([], Ret n) with (ret n). rewrite bind_ret_l. exact IH.
Qed.

Lemma returned_bind {A B} (m : M A) (f : A -> M B) (a : A) :
  returned m = Some a -> returned (bind m f) = returned (f a).
Proof.
  unfold returned. rewrite bind_split.
  destruct (snd m) as [a' | c]; [| discriminate].
  intros H. injection H as ->. reflexivity.
Qed.

Lemma pickNext_loop_last (config : conf) (pre post : selection) (s : loc) (n : string) :
  isNextPager s = true ->
  Forall (fun t => isNextPager t = false) post ->
  returned (forEach (pre ++ s :: post) (pickNext config) n)
  = Some (defaultDomain config ++ hrefOrEmpty s).
Proof.
  intros Hs Hpost. revert n. induction pre as [| p pre IH]; intros n.
  - cbn [app forEach].
    rewrite (returned_bind _ _ _ (pickNext_pager config n s Hs)).
    rewrite (pickNext_loop_others config post _ Hpost). reflexivity.
  - cbn [app forEach].
    destruct (pickNext_loop_returns config [p] n) as [n' Hn'].
    cbn [forEach] in Hn'. rewrite bind_split in Hn'.
    destruct (snd (pickNext config n p)) as [n1 |] eqn:Hp; [| discriminate Hn'].
    rewrite (returned_bind _ _ n1); [apply IH |].
    unfold returned. rewrite Hp. reflexivity.
Qed.

(** X5: [extractNextUrl] always returns.  Its result is the base domain
    followed by the href (empty when absent) of the last [div.pager
    a.navi] anchor whose id starts with [next_pager_]; it is the empty
    string, with nothing logged, when there is no such anchor. *)
Theorem extractNextUrl_last_pager (config : conf) (doc : document) :
  let pager := FindDoc doc [tagClass "div" "pager"; tagClass "a" "navi"] in
  (exists n, snd (extractNextUrl config doc) = Ret n)
  /\ (forall pre s post,
        pager = (pre ++ s :: post)%list ->
        isNextPager s = true ->
        Forall (fun t => isNextPager t = false) post ->
        returned (extractNextUrl config doc)
        = Some (defaultDomain config ++ hrefOrEmpty s))
  /\ (Forall (fun t => isNextPager t = false) pager ->
      extractNextUrl config doc = ([], Ret "")).
Proof.
  intros pager. unfold extractNextUrl, Each. fold pager. split; [| split].
  - apply pickNext_loop_returns.
  - intros pre s post -> Hs Hpost. apply pickNext_loop_last; assumption.
  - apply pickNext_loop_others.
Qed.

Lemma extractNextUrl_last_pager_witness :
  returned (extractNextUrl quiet twoPagers) = Some "http://nagi.ee/page/4"
  /\ extractNextUrl quiet seedPage = ([], Ret "").
Proof.
  destruct (extractNextUrl_last_pager quiet twoPagers) as (_ & Hlast & _).
  destruct (extractNextUrl_last_pager quiet seedPage) as (_ & _ & Hnone).
  split.
  - apply (Hlast
             (firstn 2 (FindDoc twoPagers [tagClass "div" "pager"; tagClass "a" "navi"]))
             (nth 2 (FindDoc twoPagers [tagClass "div" "pager"; tagClass "a" "navi"])
                  (el "a" [], []))
             []); [reflexivity | reflexivity | constructor].
  - apply Hnone. constructor.
Defined.

(** ** Further properties: the page sequence *)

Lemma fetchesOf_app (es es' : list event) :
  fetchesOf (es ++ es') = (fetchesOf es ++ fetchesOf es')%list.
Proof. apply flat_map_app. Qed.

Lemma sendsOf_sends (l : list string) : sendsOf (map Send l) = l.
Proof. induction l as [| u l IH]; simpl; [| rewrite IH]; reflexivity. Qed.

Lemma fetchesOf_sends (l : list string) : fetchesOf (map Send l) = [].
Proof. induction l as [| u l IH]; simpl; [reflexivity | exact IH]. Qed.

Lemma fst_bind {A B} (m : M A) (f : A -> M B) (a : A) :
  snd m = Ret a -> fst (bind m f) = (fst m ++ fst (f a))%list.
Proof. intros H. rewrite bind_split, H. reflexivity. Qed.

Lemma snd_bind {A B} (m : M A) (f : A -> M B) (a : A) :
  snd m = Ret a -> snd (bind m f) = snd (f a).
Proof. intros H. rewrite bind_split, H. reflexivity. Qed.

(** [extractNextUrl] only logs. *)
Lemma pickNext_loop_logs (config : conf) (sel : selection) :
  forall n,
    fetchesOf (fst (forEach sel (pickNext config) n)) = []
    /\ sendsOf (fst (forEach sel (pickNext config) n)) = [].
Proof.
  induction sel as [| s sel IH]; intros n; [split; reflexivity |].
  cbn [forEach].
  assert (Hhead : exists n1 es,
             pickNext config n s = (es, Ret n1)
             /\ fetchesOf es = [] /\ sendsOf es = []).
  { unfold pickNext. destruct (Attr [s] "id") as [val |];
      [| exists n, []; repeat split].
    destruct (negb (Str.HasPrefix val "next_pager_")); [exists n, []; repeat split |].
    destruct (Attr [s] "href") as [h |]; eexists; eexists; repeat split. }
  destruct Hhead as (n1 & es & Hp & Hf & Hs).
  rewrite (fst_bind _ _ n1) by (rewrite Hp; reflexivity).
  rewrite Hp. cbn [fst]. rewrite fetchesOf_app, sendsOf_app, Hf, Hs.
  apply IH.
Qed.

(** One iteration of a walk without [-verbose]: one fetch, the item
    links of the page, and the way on. *)
Lemma iteration_quiet (W : world) (config : conf) (url next : string) :
  verbose config = false ->
  nextLink W config url = Some next ->
  exists es,
    iteration W config url = (es, Ret (if String.eqb url next then None else Some next))
    /\ fetchesOf es = [url]
    /\ sendsOf es = itemLinks W url.
Proof.
  unfold nextLink, itemLinks, iteration. intros Hv Hnext.
  rewrite Hv. cbn [when]. rewrite bind_ret_l, bind_emit.
  destruct (NewDocument W url) as [doc | err]; [| discriminate Hnext].
  assert (Hitems : extractImageUrls config doc =
            (map Send (hrefs (FindDoc doc [tagClass "div" "imagelog"; tag "p"; tag "a"])),
             Ret tt))
    by (apply sendHref_quiet, Hv).
  destruct (pickNext_loop_logs config
              (FindDoc doc [tagClass "div" "pager"; tagClass "a" "navi"]) "")
    as [Hf Hs].
  change (forEach (FindDoc doc [tagClass "div" "pager"; tagClass "a" "navi"])
                  (pickNext config) "")
    with (extractNextUrl config doc) in Hf, Hs.
  unfold returned in Hnext.
  destruct (extractNextUrl config doc) as [logs [n | c]]; cbn [fst snd] in *;
    [| discriminate Hnext].
  injection Hnext as ->. rewrite Hitems.
  exists (Fetch url
            :: map Send (hrefs (FindDoc doc [tagClass "div" "imagelog"; tag "p"; tag "a"]))
            ++ logs)%list.
  split; [| split].
  - unfold bind, ret. destruct (String.eqb url next); cbn; rewrite app_nil_r; reflexivity.
  - cbn [fetchesOf flat_map app].
    change (flat_map (fun e => match e with Fetch u => [u] | _ => [] end))
      with fetchesOf.
    rewrite fetchesOf_app, fetchesOf_sends, Hf. reflexivity.
  - cbn [sendsOf flat_map app].
    change (flat_map (fun e => match e with Send u => [u] | _ => [] end))
      with sendsOf.
    rewrite sendsOf_app, sendsOf_sends, Hs. apply app_nil_r.
Qed.

Lemma loop_route (W : world) (config : conf) (k : nat) :
  verbose config = false ->
  forall seed fuel,
    stopsAfter W config k seed ->
    k < fuel ->
    exists es,
      loop W config fuel seed = (es, Ret true)
      /\ fetchesOf es = route W config k seed
      /\ sendsOf es = flat_map (itemLinks W) (route W config k seed).
Proof.
  intros Hv. induction k as [| k IH]; intros seed fuel Hstop Hfuel;
    destruct fuel as [| fuel]; try lia; cbn [loop];
    destruct Hstop as [Hne Hstop];
    (destruct (String.eqb_spec seed "") as [-> | _]; [contradiction |]).
  - assert (Hnext : exists next, nextLink W config seed = Some next
                                 /\ (next = "" \/ next = seed)).
    { destruct Hstop as [H | H]; eexists; (split; [exact H |]); tauto. }
    destruct Hnext as (next & Hnext & Hcase).
    destruct (iteration_quiet W config seed next Hv Hnext) as (es & Hit & Hf & Hs).
    exists es. rewrite Hit.
    assert (Hrest : (if String.eqb seed next then ret true
                     else loop W config fuel next) = ret true).
    { destruct Hcase as [-> | ->].
      - destruct (String.eqb seed ""); [reflexivity |].
        destruct fuel; reflexivity.
      - rewrite String.eqb_refl. reflexivity. }
    split; [| split].
    + unfold bind. destruct (String.eqb seed next).
      * cbn. rewrite app_nil_r. reflexivity.
      * rewrite Hrest. cbn. rewrite app_nil_r. reflexivity.
    + rewrite Hf. reflexivity.
    + rewrite Hs. cbn. rewrite app_nil_r. reflexivity.
  - destruct Hstop as (next & Hnext & Hne1 & Hne2 & Hstop).
    destruct (iteration_quiet W config seed next Hv Hnext) as (es & Hit & Hf & Hs).
    destruct (String.eqb_spec seed next) as [-> | _]; [contradiction |].
    destruct (IH next fuel Hstop ltac:(lia)) as (es' & Hloop & Hf' & Hs').
    exists (es ++ es')%list. rewrite Hit. split; [| split].
    + unfold bind. rewrite Hloop. reflexivity.
    + rewrite fetchesOf_app, Hf, Hf'. cbn [route]. rewrite Hnext. reflexivity.
    + rewrite sendsOf_app, Hs, Hs'. cbn [route]. rewrite Hnext. reflexivity.
Qed.

(** X6: in a walk without [-verbose] that passes [k] pages leading on
    and then a page that stops it, [fetchAllImageUrls] fetches exactly
    those [k + 1] pages, each once and in order, sends the item links of
    each page in page order and in document order within a page, and
    then closes [urls]; any fuel above [k] gives this same result. *)
Theorem walk_fetches_each_page_once
    (W : world) (config : conf) (k : nat) (seed : string) (fuel : nat) :
  verbose config = false ->
  stopsAfter W config k seed ->
  k < fuel ->
  exists es,
    fetchAllImageUrls W config fuel seed = ((es ++ [CloseChan; WgDone])%list, Ret true)
    /\ fetchesOf es = route W config k seed
    /\ length (fetchesOf es) = S k
    /\ sendsOf es = flat_map (itemLinks W) (route W config k seed).
Proof.
  intros Hv Hstop Hfuel.
  destruct (loop_route W config k Hv seed fuel Hstop Hfuel) as (es & Hloop & Hf & Hs).
  exists es. unfold fetchAllImageUrls. rewrite Hloop.
  split; [reflexivity |]. split; [exact Hf |]. split; [| exact Hs].
  rewrite Hf. clear - Hstop. revert seed Hstop.
  induction k as [| k IH]; intros seed [_ Hstop]; cbn [route length]; [reflexivity |].
  destruct Hstop as (next & -> & _ & _ & Hstop). rewrite (IH next Hstop). reflexivity.
Qed.

Lemma walk_fetches_each_page_once_witness :
  exists es,
    fetchAllImageUrls twoPages quiet 2 "http://nagi.ee/page/1"
    = ((es ++ [CloseChan; WgDone])%list, Ret true)
    /\ fetchesOf es = route twoPages quiet 1 "http://nagi.ee/page/1"
    /\ length (fetchesOf es) = 2
    /\ sendsOf es = flat_map (itemLinks twoPages)
                             (route twoPages quiet 1 "http://nagi.ee/page/1").
Proof.
  apply (walk_fetches_each_page_once twoPages quiet 1 "http://nagi.ee/page/1" 2).
  - reflexivity.
  - split; [discriminate |]. exists "http://nagi.ee/page/2".
    split; [reflexivity |]. split; [discriminate |]. split; [discriminate |].
    split; [discriminate |]. left. reflexivity.
  - lia.
Defined.

(** ** Further properties: one download *)

(** Find a given event in an explicit list, or show it is not there. *)
Ltac found := cbn; repeat first [left; reflexivity | right].
Ltac missing :=
  cbn; intros Hin; repeat destruct Hin as [Hin | Hin]; try discriminate Hin; exact Hin.

Lemma downloadImage_exit_code (W : world) (config : conf) (url : string)
    (es : list event) (c : Z) :
  downloadImage W config url = (es, Exit c) ->
  c = 1%Z
  /\ os_Create W (path_Join W (directory config) (path_Base W url)) <> None
  /\ ~ In (HttpGet url) es.
Proof.
  unfold downloadImage.
  destruct (os_Create W (path_Join W (directory config) (path_Base W url)))
    as [err |] eqn:Hcreate.
  - destruct (verbose config); cbn; intros H; injection H as <- <-;
      (split; [reflexivity |]); (split; [discriminate |]); missing.
  - destruct (http_Get W url) as [body | gerr];
      [destruct (io_Copy W (path_Join W (directory config) (path_Base W url)) body);
       destruct (out_Sync W (path_Join W (directory config) (path_Base W url))) |];
      destruct (verbose config); cbn; intros H; discriminate H.
Qed.

(** X7: a call of [downloadImage] that returns has closed the file it
    created, as the last thing it did.  When the request succeeded it
    has copied, synced (also after a failed copy) and closed the
    response body; when the request failed it has done none of these.
    A call that ends the process does so with status 1, because the
    file could not be created, and has not touched the network. *)
Theorem downloadImage_closes_what_it_opens (W : world) (config : conf) (url : string) :
  let destination := path_Join W (directory config) (path_Base W url) in
  (forall es,
      downloadImage W config url = (es, Ret tt) ->
      last es (Log "") = CloseFile destination
      /\ In (Create destination) es
      /\ In (HttpGet url) es
      /\ (forall body, http_Get W url = Ok body ->
            In (Copy destination) es /\ In (Sync destination) es
            /\ In (CloseBody url) es)
      /\ (forall err, http_Get W url = Err err ->
            ~ In (Copy destination) es /\ ~ In (Sync destination) es
            /\ ~ In (CloseBody url) es))
  /\ (forall es c,
        downloadImage W config url = (es, Exit c) ->
        c = 1%Z /\ os_Create W destination <> None /\ ~ In (HttpGet url) es).
Proof.
  intros destination. split; [| apply downloadImage_exit_code].
  unfold downloadImage. fold destination.
  destruct (os_Create W destination) as [cerr |];
    [destruct (verbose config); cbn; intros es H; discriminate H |].
  destruct (http_Get W url) as [body | gerr].
  - destruct (io_Copy W destination body); destruct (out_Sync W destination);
      destruct (verbose config); cbn; intros es H; injection H as <-;
      (split; [reflexivity |]); (split; [found |]); (split; [found |]);
      (split; [intros b _; repeat split; found | intros e He; discriminate He]).
  - destruct (verbose config); cbn; intros es H; injection H as <-;
      (split; [reflexivity |]); (split; [found |]); (split; [found |]);
      (split; [intros b Hb; discriminate Hb |]);
      intros e _; repeat split; missing.
Qed.

Lemma downloadImage_closes_what_it_opens_witness :
  last (fst (downloadImage site archive "second.jpg")) (Log "")
  = CloseFile "out/second.jpg"
  /\ (forall es c, downloadImage (readOnly noTable) quiet "a.jpg" = (es, Exit c) ->
        c = 1%Z).
Proof.
  split.
  - destruct (proj1 (downloadImage_closes_what_it_opens site archive "second.jpg")
                (fst (downloadImage site archive "second.jpg")) eq_refl)
      as (Hlast & _).
    exact Hlast.
  - intros es c H.
    destruct (proj2 (downloadImage_closes_what_it_opens (readOnly noTable) quiet "a.jpg")
                es c H) as (Hc & _).
    exact Hc.
Defined.

(** ** Further properties: the token pool at work *)

(** What [downloadImages] decides for one anchor. *)
Lemma wanted_cases (config : conf) (x : loc) :
  (exists es, wanted config x = (es, Ret None))
  \/ (exists val, wanted config x = ([], Ret (Some val))
                  /\ Str.Contains val "size=o" = true).
Proof.
  unfold wanted. destruct (Attr [x] "href") as [val |].
  - destruct (Str.Contains val "size=o") eqn:Hc; cbn [negb].
    + right. exists val. split; [reflexivity | exact Hc].
    + left. eexists. reflexivity.
  - left. destruct (verbose config); eexists; reflexivity.
Qed.

(** X8: the consumer takes a token for a wanted anchor as soon as the
    channel has room; while the channel is full the consumer cannot
    move, whatever the other goroutines do, and no token is added. *)
Theorem consumer_waits_for_a_free_slot
    (W : world) (config : conf) (w : M bool) (cl : bool) (x : loc)
    (rest : selection) (val : string) (ts : list task) (sm g : nat) :
  bounded config = true ->
  wanted config x = ([], Ret (Some val)) ->
  (sm < capacity config ->
     step W config (St w cl (SEach (x :: rest)) ts sm g None) (Acquire val)
          (St w cl (SToken val rest) ts (S sm) g None))
  /\ (capacity config <= sm ->
      forall a s',
        step W config (St w cl (SEach (x :: rest)) ts sm g None) a s' ->
        sink s' = SEach (x :: rest) /\ sem s' <= sm).
Proof.
  intros Hb Hw. split.
  - intros Hroom. apply step_acquire; assumption.
  - intros Hfull a s' Hstep.
    inversion Hstep; subst; cbn [sink sem]; try (split; [reflexivity | lia]);
      try congruence; try lia.
Qed.

Lemma consumer_waits_for_a_free_slot_witness :
  step gallery quiet
       (St ([], Ret false) false
           (SEach (FindDoc itemPage [byId "zoom"; tag "ul"; tag "li"; tag "a"]))
           [] 0 2 None)
       (Acquire "/view?id=7&size=o")
       (St ([], Ret false) false (SToken "/view?id=7&size=o" []) [] 1 2 None).
Proof.
  apply (proj1 (consumer_waits_for_a_free_slot gallery quiet ([], Ret false) false
                  (nth 0 (FindDoc itemPage [byId "zoom"; tag "ul"; tag "li"; tag "a"])
                       (el "a" [], []))
                  [] "/view?id=7&size=o" [] 0 2 eq_refl eq_refl)).
  vm_compute. lia.
Defined.

Lemma count_pos {A} (p : A -> bool) (i : nat) (x : A) (l : list A) :
  nth_error l i = Some x -> p x = true -> 1 <= count p l.
Proof.
  revert i. induction l as [| y l IH]; intros [| i] Hi Hp; simpl in Hi;
    try discriminate; rewrite count_cons.
  - injection Hi as ->. rewrite Hp. simpl. lia.
  - specialize (IH i Hi Hp). lia.
Qed.

(** X9: with a bounded pool, a task that has come to [<-semaphore]
    never waits there: in every state of every execution the channel
    holds a token for it, and the receive takes exactly one. *)
Theorem release_never_blocks
    (W : world) (config : conf) (wprog : M bool) (tr : list action)
    (s : state) (i : nat) :
  (0 < parallel config)%Z ->
  run W config (init wprog) tr s ->
  exited s = None ->
  nth_error (tasks s) i = Some TRelease ->
  exists s',
    step W config s (Release i) s'
    /\ sem s = S (sem s')
    /\ nth_error (tasks s') i = Some TDefer.
Proof.
  intros Hpos Hrun Hex Hi.
  pose proof (ledger_run W config _ _ _ Hrun [] (ledger_init config wprog)) as Hl.
  simpl in Hl. destruct Hl as (_ & _ & _ & Hpool).
  pose proof (proj2 (bounded_iff config) Hpos) as Hb.
  destruct (Hpool Hb) as (_ & _ & Hsem & _).
  pose proof (count_pos holding i TRelease (tasks s) Hi eq_refl) as Hone.
  unfold inFlight in Hsem.
  destruct s as [w cl sk ts sm g ex]; cbn [tasks sem sink exited] in *. subst ex.
  destruct sm as [| sm]; [lia |].
  exists (St w cl sk (setNth i TDefer ts) sm g None).
  split; [apply step_release; assumption |].
  split; [reflexivity |]. cbn [tasks]. eapply nth_error_setNth, Hi.
Qed.

Lemma release_never_blocks_witness :
  exists s',
    step gallery quiet galleryEnd (Release 0) s'
    /\ sem galleryEnd = S (sem s')
    /\ nth_error (tasks s') 0 = Some TDefer.
Proof.
  apply (release_never_blocks gallery quiet
           (fetchAllImageUrls gallery quiet 1 "seed") galleryTrace galleryEnd 0).
  - reflexivity.
  - exact gallery_run.
  - reflexivity.
  - reflexivity.
Defined.

(** ** Further properties: without a bound *)

Lemma unbounded_iff (config : conf) : bounded config = false <-> (parallel config <= 0)%Z.
Proof. unfold bounded. rewrite Z.ltb_ge. reflexivity. Qed.

Lemma idle_pool_step (W : world) (config : conf) (tr : list action)
    (s s' : state) (a : action) :
  bounded config = false ->
  sem s = 0 /\ count isAcquire tr = 0 /\ count isRelease tr = 0 ->
  step W config s a s' ->
  sem s' = 0 /\ count isAcquire (tr ++ [a]) = 0 /\ count isRelease (tr ++ [a]) = 0.
Proof.
  intros Hb (Hsem & Hacq & Hrel) Hstep.
  rewrite !count_app, !count_one.
  destruct Hstep; cbn [sem isAcquire isRelease Nat.b2n] in *;
    try congruence; repeat split; lia.
Qed.

Lemma idle_pool_run (W : world) (config : conf) (s s' : state) (tr : list action) :
  bounded config = false ->
  run W config s tr s' ->
  forall pre,
    sem s = 0 /\ count isAcquire pre = 0 /\ count isRelease pre = 0 ->
    sem s' = 0 /\ count isAcquire (pre ++ tr) = 0 /\ count isRelease (pre ++ tr) = 0.
Proof.
  intros Hb. induction 1 as [s | s a s1 tr s2 Hstep _ IH]; intros pre Hpre.
  - rewrite app_nil_r. exact Hpre.
  - replace (pre ++ a :: tr)%list with ((pre ++ [a]) ++ tr)%list
      by (rewrite <- app_assoc; reflexivity).
    apply IH. eapply idle_pool_step; eassumption.
Qed.

(** With [parallel <= 0] the consumer goes through the anchors of an
    item page without ever waiting, starting one task for each wanted
    anchor. *)
Lemma unbounded_spawns_all (W : world) (config : conf) (w : M bool) (cl : bool)
    (sm : nat) (sel : selection) :
  bounded config = false ->
  forall ts g,
  exists tr,
    run W config (St w cl (SEach sel) ts sm g None) tr
        (St w cl (SEach []) (ts ++ map TStart (wantedUrls config sel))%list sm
            (g + length (wantedUrls config sel)) None)
    /\ spawnsOf tr = wantedUrls config sel.
Proof.
  intros Hb. induction sel as [| x sel IH]; intros ts g.
  - exists []. cbn. rewrite app_nil_r, Nat.add_0_r. split; [constructor | reflexivity].
  - cbn [wantedUrls flat_map]. fold (wantedUrls config sel).
    destruct (wanted_cases config x) as [[es Hw] | (val & Hw & _)];
      rewrite Hw; cbn [returned snd].
    + destruct (IH ts g) as (tr & Hrun & Hsp).
      exists (Pass es :: tr). split; [| exact Hsp].
      econstructor; [apply step_pass, Hw | exact Hrun].
    + destruct (IH (ts ++ [TStart (defaultDomain config ++ val)])%list (S g))
        as (tr & Hrun & Hsp).
      exists (Unbounded val :: Add :: Go (defaultDomain config ++ val) :: tr).
      split; [| unfold spawnsOf in *; cbn; rewrite Hsp; reflexivity].
      cbn [app map length]. rewrite <- app_assoc in Hrun. cbn [app] in Hrun.
      replace (g + S (length (wantedUrls config sel)))
        with (S g + length (wantedUrls config sel)) by lia.
      econstructor; [apply step_unbounded; eassumption |].
      econstructor; [apply step_add |].
      econstructor; [apply step_go | exact Hrun].
Qed.

(** X10: with [parallel <= 0] the semaphore is never used: no execution
    acquires or releases, and the channel stays empty.  Nothing bounds
    the tasks then: from any anchors of an item page the consumer can,
    without waiting for any task, start one task per wanted anchor, so
    that all of them are in flight together. *)
Theorem unbounded_never_waits (W : world) (config : conf) :
  (parallel config <= 0)%Z ->
  (forall wprog tr s,
      run W config (init wprog) tr s ->
      sem s = 0 /\ count isAcquire tr = 0 /\ count isRelease tr = 0)
  /\ (forall w cl sel ts sm g,
        exists tr s',
          run W config (St w cl (SEach sel) ts sm g None) tr s'
          /\ sink s' = SEach []
          /\ spawnsOf tr = wantedUrls config sel
          /\ inFlight s' = count holding ts + length (wantedUrls config sel)).
Proof.
  intros Hpar. pose proof (proj2 (unbounded_iff config) Hpar) as Hb. split.
  - intros wprog tr s Hrun.
    apply (idle_pool_run W config _ _ _ Hb Hrun []). repeat split.
  - intros w cl sel ts sm g.
    destruct (unbounded_spawns_all W config w cl sm sel Hb ts g) as (tr & Hrun & Hsp).
    eexists. eexists. split; [exact Hrun |]. split; [reflexivity |].
    split; [exact Hsp |].
    unfold inFlight. cbn [tasks]. rewrite count_app. f_equal.
    generalize (wantedUrls config sel). intros l.
    induction l as [| u l IH]; [reflexivity |].
    cbn [map length]. rewrite count_cons, IH. reflexivity.
Qed.

Lemma unbounded_never_waits_witness :
  exists tr s',
    run site freeForAll
        (St ([], Ret false) false
            (SEach (FindDoc albumPage [byId "zoom"; tag "ul"; tag "li"; tag "a"]))
            [] 0 2 None) tr s'
    /\ sink s' = SEach []
    /\ spawnsOf tr = ["http://nagi.ee/view?id=1&size=o";
                      "http://nagi.ee/view?id=2&size=o";
                      "http://nagi.ee/view?id=3&size=o"]
    /\ inFlight s' = 3.
Proof.
  apply (proj2 (unbounded_never_waits site freeForAll ltac:(cbn; lia))
           ([], Ret false) false
           (FindDoc albumPage [byId "zoom"; tag "ul"; tag "li"; tag "a"]) [] 0 2).
Defined.

(** ** Further properties: what is started, and in which order *)

Lemma spawnsOf_app (tr tr' : list action) :
  spawnsOf (tr ++ tr') = (spawnsOf tr ++ spawnsOf tr')%list.
Proof. apply flat_map_app. Qed.

Lemma openedOf_app (tr tr' : list action) :
  openedOf (tr ++ tr') = (openedOf tr ++ openedOf tr')%list.
Proof. apply flat_map_app. Qed.

Lemma chosen_step (W : world) (config : conf) (tr : list action)
    (s s' : state) (a : action) :
  Forall (originalSize config) (spawnsOf tr) /\ sinkChoice (sink s) ->
  step W config s a s' ->
  Forall (originalSize config) (spawnsOf (tr ++ [a])) /\ sinkChoice (sink s').
Proof.
  intros [Hsp Hk] Hstep. rewrite spawnsOf_app, Forall_app.
  destruct Hstep; cbn [sink sinkChoice spawnsOf flat_map app] in *;
    try solve [split; [split; [exact Hsp | constructor] | first [exact Hk | exact I]]].
  - (* Acquire *)
    split; [split; [exact Hsp | constructor] |].
    match goal with H : wanted config _ = _ |- _ =>
      destruct (wanted_cases config s) as [[es He] | (v & He & Hc)];
      rewrite He in H; [discriminate H | injection H as <-; exact Hc] end.
  - (* Unbounded *)
    split; [split; [exact Hsp | constructor] |].
    match goal with H : wanted config _ = _ |- _ =>
      destruct (wanted_cases config s) as [[es He] | (v & He & Hc)];
      rewrite He in H; [discriminate H | injection H as <-; exact Hc] end.
  - (* Go *)
    split; [| exact I]. split; [exact Hsp |].
    constructor; [| constructor]. exists val. split; [reflexivity | exact Hk].
Qed.

Lemma chosen_run (W : world) (config : conf) (s s' : state) (tr : list action) :
  run W config s tr s' ->
  forall pre,
    Forall (originalSize config) (spawnsOf pre) /\ sinkChoice (sink s) ->
    Forall (originalSize config) (spawnsOf (pre ++ tr)) /\ sinkChoice (sink s').
Proof.
  induction 1 as [s | s a s1 tr s2 Hstep _ IH]; intros pre Hpre.
  - rewrite app_nil_r. exact Hpre.
  - replace (pre ++ a :: tr)%list with ((pre ++ [a]) ++ tr)%list
      by (rewrite <- app_assoc; reflexivity).
    apply IH. eapply chosen_step; eassumption.
Qed.

(** X11: every task [downloadImages] starts is given the base domain
    followed by an href that contains [size=o]; anchors without href or
    of another size never lead to a task. *)
Theorem tasks_only_for_original_size
    (W : world) (config : conf) (wprog : M bool) (tr : list action) (s : state) :
  run W config (init wprog) tr s ->
  Forall (originalSize config) (spawnsOf tr)
  /\ length (spawnsOf tr) = length (tasks s).
Proof.
  intros Hrun. split.
  - apply (chosen_run W config _ _ _ Hrun []). split; [constructor | exact I].
  - pose proof (ledger_run W config _ _ _ Hrun [] (ledger_init config wprog)) as Hl.
    simpl in Hl. destruct Hl as (Hspawn & _). rewrite <- Hspawn.
    clear. induction tr as [| a tr IH]; [reflexivity |].
    cbn [spawnsOf flat_map]. fold (spawnsOf tr).
    rewrite count_cons, length_app, IH. destruct a; reflexivity.
Qed.

Lemma tasks_only_for_original_size_witness :
  Forall (originalSize archive) (spawnsOf siteTrace)
  /\ length (spawnsOf siteTrace) = length (tasks siteEnd).
Proof.
  apply (tasks_only_for_original_size site archive
           (fetchAllImageUrls site archive 1 "seed") siteTrace siteEnd site_run).
Defined.

Lemma openItem_cases (W : world) (u : string) :
  (exists err, openItem W u =
               ([Fetch u; Log ("Error opening document with all images: " ++ err)],
                Ret None))
  \/ (exists sel, openItem W u = ([Fetch u], Ret (Some sel))).
Proof.
  unfold openItem. rewrite bind_emit.
  destruct (NewDocument W u) as [doc | err].
  - right. eexists. reflexivity.
  - left. exists err. reflexivity.
Qed.

Lemma in_order_step (W : world) (config : conf) (wprog : M bool)
    (tr : list action) (s s' : state) (a : action) :
  sendsOf (fst wprog) = (received tr ++ sendsOf (fst (walker s)))%list
  /\ (dryrun config = false -> (openedOf tr ++ inHand (sink s))%list = received tr) ->
  step W config s a s' ->
  sendsOf (fst wprog) = (received (tr ++ [a]) ++ sendsOf (fst (walker s')))%list
  /\ (dryrun config = false ->
      (openedOf (tr ++ [a]) ++ inHand (sink s'))%list = received (tr ++ [a])).
Proof.
  intros [Hsends Hopen] Hstep. rewrite received_app, openedOf_app.
  destruct Hstep;
    cbn [walker sink fst received openedOf flat_map inHand app] in *;
    rewrite ?app_nil_r in *;
    try solve [split; assumption].
  - (* Walk *)
    split; [| assumption]. destruct e; try discriminate; exact Hsends.
  - (* Handoff *)
    split; [rewrite <- app_assoc; exact Hsends |].
    intros Hd. rewrite (Hopen Hd). reflexivity.
  - (* PrintLine *)
    split; [assumption | intros Hd; congruence].
  - (* OpenItem, page read *)
    split; [assumption |]. intros Hd. rewrite <- (Hopen Hd).
    destruct (openItem_cases W u) as [[err He] | [sel He]];
      match goal with H : openItem W u = _ |- _ => rewrite He in H; injection H as <- end;
      reflexivity.
  - (* OpenItem, page unreadable *)
    split; [assumption |]. intros Hd. rewrite <- (Hopen Hd).
    destruct (openItem_cases W u) as [[err He] | [sel He]];
      match goal with H : openItem W u = _ |- _ => rewrite He in H; injection H as <- end;
      reflexivity.
Qed.

Lemma in_order_run (W : world) (config : conf) (wprog : M bool)
    (s s' : state) (tr : list action) :
  run W config s tr s' ->
  forall pre,
    sendsOf (fst wprog) = (received pre ++ sendsOf (fst (walker s)))%list
    /\ (dryrun config = false -> (openedOf pre ++ inHand (sink s))%list = received pre) ->
    sendsOf (fst wprog) = (received (pre ++ tr) ++ sendsOf (fst (walker s')))%list
    /\ (dryrun config = false ->
        (openedOf (pre ++ tr) ++ inHand (sink s'))%list = received (pre ++ tr)).
Proof.
  induction 1 as [s | s a s1 tr s2 Hstep _ IH]; intros pre Hpre.
  - rewrite app_nil_r. exact Hpre.
  - replace (pre ++ a :: tr)%list with ((pre ++ [a]) ++ tr)%list
      by (rewrite <- app_assoc; reflexivity).
    apply IH. eapply in_order_step; eassumption.
Qed.

(** X12: the consumer receives the URLs in the order the walker sends
    them, none lost, none twice: what has been received so far followed
    by what the walker still has to send is the walker's whole sequence
    of sends.  When downloading, the item pages are opened one by one in
    that same order. *)
Theorem consumer_receives_in_order
    (W : world) (config : conf) (wprog : M bool) (tr : list action) (s : state) :
  run W config (init wprog) tr s ->
  sendsOf (fst wprog) = (received tr ++ sendsOf (fst (walker s)))%list
  /\ (dryrun config = false ->
      (openedOf tr ++ inHand (sink s))%list = received tr).
Proof.
  intros Hrun. apply (in_order_run W config wprog _ _ _ Hrun []).
  split; [reflexivity | intros _; reflexivity].
Qed.

Lemma consumer_receives_in_order_witness :
  sendsOf (fst (fetchAllImageUrls site archive 1 "seed"))
  = (received siteTrace ++ sendsOf (fst (walker siteEnd)))%list
  /\ (dryrun archive = false ->
      (openedOf siteTrace ++ inHand (sink siteEnd))%list = received siteTrace).
Proof.
  apply (consumer_receives_in_order site archive
           (fetchAllImageUrls site archive 1 "seed") siteTrace siteEnd site_run).
Defined.

(** ** Further properties: the wait group *)

Lemma walkerPhase_step (W : world) (config : conf) (wprog : M bool)
    (tr : list action) (s s' : state) (a : action) :
  walkerPhase wprog tr s -> step W config s a s' ->
  walkerPhase wprog (tr ++ [a]) s'.
Proof.
  unfold walkerPhase. intros (Hsnd & Hph) Hstep.
  rewrite count_app, count_one.
  destruct Hstep; cbn [walker closed fst snd isWalkerDone Nat.b2n] in *;
    rewrite ?Nat.add_0_r;
    try solve [split; assumption];
    (split; [exact Hsnd |]).
  - (* Walk *)
    destruct Hph as [(Hc & Hn & pre & Hpre & Hshape) | [(_ & _ & Hw & _) | (_ & _ & Hw & _)]];
      [| injection Hw as -> _; discriminate | discriminate Hw].
    left. split; [exact Hc |]. split; [exact Hn |].
    destruct Hshape as [[Hw Hr] | [Hw Hr]].
    + destruct pre as [| p pre]; cbn [app] in Hw; injection Hw as -> Hw;
        [discriminate |].
      exists pre. split; [apply (Forall_inv_tail Hpre) |]. left. split; assumption.
    + subst pre. exists es. split; [apply (Forall_inv_tail Hpre) |].
      right. split; [reflexivity | exact Hr].
  - (* Handoff *)
    destruct Hph as [(Hc & Hn & pre & Hpre & Hshape) | [(Hc & _) | (Hc & _)]];
      try discriminate Hc.
    left. split; [exact Hc |]. split; [exact Hn |].
    destruct Hshape as [[Hw Hr] | [Hw Hr]].
    + destruct pre as [| p pre]; cbn [app] in Hw; [discriminate Hw |].
      injection Hw as <- Hw.
      exists pre. split; [apply (Forall_inv_tail Hpre) |]. left. split; assumption.
    + subst pre. exists es. split; [apply (Forall_inv_tail Hpre) |].
      right. split; [reflexivity | exact Hr].
  - (* close(urls) *)
    destruct Hph as [(Hc & Hn & pre & Hpre & Hshape) | [(Hc & _) | (Hc & _)]];
      try discriminate Hc.
    right. left. split; [reflexivity |]. split; [exact Hn |].
    destruct Hshape as [[Hw Hr] | [Hw Hr]].
    + destruct pre as [| p pre]; cbn [app] in Hw.
      * injection Hw as ->. split; [reflexivity | exact Hr].
      * injection Hw as <- _. exfalso. apply (Forall_inv Hpre).
    + subst pre. exfalso. apply (Forall_inv Hpre).
  - (* the walker's wg.Done() *)
    destruct Hph as [(Hc & Hn & pre & Hpre & Hshape) | [(Hc & Hn & Hw & Hr) | (_ & _ & Hw & _)]];
      [| | discriminate Hw].
    + exfalso. destruct Hshape as [[Hw Hr] | [Hw Hr]].
      * destruct pre as [| p pre]; cbn [app] in Hw; [discriminate Hw |].
        injection Hw as <- _. apply (Forall_inv Hpre).
      * subst pre. apply (Forall_inv Hpre).
    + right. right. injection Hw as ->.
      split; [exact Hc |]. split; [lia |]. split; [reflexivity | exact Hr].
Qed.

Lemma count_alive_setNth (i : nat) (t t' : task) (ts : list task) :
  nth_error ts i = Some t ->
  count alive (setNth i t' ts) + Nat.b2n (alive t) = count alive ts + Nat.b2n (alive t').
Proof. apply count_setNth. Qed.

Lemma wgBooks_step (W : world) (config : conf) (wprog : M bool)
    (tr : list action) (s s' : state) (a : action) :
  (forall c, snd wprog = Exit c -> c = 1%Z) ->
  wgBooks wprog tr s -> step W config s a s' -> wgBooks wprog (tr ++ [a]) s'.
Proof.
  unfold wgBooks. intros Hcode (Hph & Hwg & Hclosed & Hexit) Hstep.
  split; [eapply walkerPhase_step; eassumption |].
  destruct Hph as [Hsnd _].
  rewrite count_app, count_one.
  destruct Hstep;
    cbn [walker tasks sink closed wg exited fst snd isWalkerDone Nat.b2n
         ended pendingAdd rangeOver] in *;
    try match goal with
        | Hi : nth_error ?ts ?i = Some ?t |- context [setNth ?i ?t' ?ts] =>
            pose proof (count_alive_setNth i t t' ts Hi) as Hal;
            cbn [alive Nat.b2n] in Hal
        end;
    rewrite ?count_app, ?count_one;
    cbn [alive Nat.b2n];
    (split; [lia |]); (split; [first [assumption | reflexivity | intros; discriminate] |]);
    intros c' Hc'; try discriminate Hc'; injection Hc' as <-.
  - (* log.Fatal in the walker *)
    left. apply Hcode. symmetry. exact Hsnd.
  - (* log.Fatal in downloadImage *)
    left. match goal with H : downloadImage _ _ _ = _ |- _ =>
      apply downloadImage_exit_code in H; destruct H as [H _]; exact H end.
  - (* os.Exit(0) after wg.Wait() *)
    right. split; reflexivity.
Qed.

Lemma wgBooks_run (W : world) (config : conf) (wprog : M bool)
    (s s' : state) (tr : list action) :
  (forall c, snd wprog = Exit c -> c = 1%Z) ->
  run W config s tr s' ->
  forall pre, wgBooks wprog pre s -> wgBooks wprog (pre ++ tr) s'.
Proof.
  intros Hcode. induction 1 as [s | s a s1 tr s2 Hstep _ IH]; intros pre Hpre.
  - rewrite app_nil_r. exact Hpre.
  - replace (pre ++ a :: tr)%list with ((pre ++ [a]) ++ tr)%list
      by (rewrite <- app_assoc; reflexivity).
    apply IH. eapply wgBooks_step; eassumption.
Qed.

Lemma fetchAllImageUrls_exit_one (W : world) (config : conf) (fuel : nat) (url : string) :
  forall c, snd (fetchAllImageUrls W config fuel url) = Exit c -> c = 1%Z.
Proof.
  intros c. unfold fetchAllImageUrls. rewrite bind_split.
  destruct (snd (loop W config fuel url)) as [[|] | c'] eqn:Hl; cbn [snd];
    try discriminate.
  intros H. injection H as <-. eapply loop_exit_code, Hl.
Qed.

Lemma wgBooks_init (W : world) (config : conf) (fuel : nat) (url : string) :
  wgBooks (fetchAllImageUrls W config fuel url) []
          (init (fetchAllImageUrls W config fuel url)).
Proof.
  destruct (fetchAllImageUrls_shape W config fuel url) as (es & Hes & Hshape).
  unfold wgBooks, walkerPhase, init. cbn.
  split; [split; [reflexivity |] |].
  - left. split; [reflexivity |]. split; [reflexivity |]. exists es.
    split; [exact Hes |].
    destruct Hshape as [-> | [-> | [c ->]]]; cbn.
    + left. split; reflexivity.
    + right. split; [reflexivity | discriminate].
    + right. split; [reflexivity | discriminate].
  - split; [reflexivity |]. split; intros; discriminate.
Qed.

Lemma count_zero_Forall {A} (p : A -> bool) (l : list A) :
  count p l = 0 -> Forall (fun x => p x = false) l.
Proof.
  induction l as [| x l IH]; intros H; [constructor |].
  rewrite count_cons in H. destruct (p x) eqn:Hp; simpl in H; [lia |].
  constructor; [exact Hp | apply IH, H].
Qed.

Lemma count_le {A} (p q : A -> bool) (l : list A) :
  (forall x, p x = true -> q x = true) -> count p l <= count q l.
Proof.
  intros Hpq. induction l as [| x l IH]; [reflexivity |].
  rewrite !count_cons. destruct (p x) eqn:Hp.
  - rewrite (Hpq x Hp). simpl. lia.
  - destruct (q x); simpl; lia.
Qed.

Lemma walkerPhase_done_le (wprog : M bool) (tr : list action) (s : state) :
  walkerPhase wprog tr s -> count isWalkerDone tr <= 1.
Proof.
  intros (_ & [(_ & H & _) | [(_ & H & _) | (_ & H & _)]]); lia.
Qed.

(** [main] leaves [wg.Wait()] and calls [os.Exit(0)] only when all the
    work of the pipeline is over: [urls] is closed and the walker has
    returned, the consumer has left its range and returned, every URL
    sent has been received, every task started has run to its end, and
    with a bounded pool every token is back. *)
Lemma clean_exit_after_all_work
    (W : world) (config : conf) (fuel : nat) (tr : list action) (s : state) :
  run W config (init (fetchAllImageUrls W config fuel (url config))) tr s ->
  exited s = Some 0%Z ->
  closed s = true
  /\ walker s = ([], Ret true)
  /\ sink s = SEnd
  /\ received tr = sendsOf (fst (fetchAllImageUrls W config fuel (url config)))
  /\ Forall (fun t => t = TEnd) (tasks s)
  /\ length (tasks s) = count isSpawn tr
  /\ (bounded config = true -> sem s = 0).
Proof.
  intros Hrun Hex.
  pose proof (wgBooks_run W config _ _ _ tr
                (fetchAllImageUrls_exit_one W config fuel (url config)) Hrun []
                (wgBooks_init W config fuel (url config))) as Hb.
  pose proof (ledger_run W config _ _ _ Hrun [] (ledger_init config _)) as Hl.
  pose proof (in_order_run W config
                (fetchAllImageUrls W config fuel (url config)) _ _ _ Hrun []
                (conj eq_refl (fun _ => eq_refl))) as Hord.
  simpl in Hb, Hl, Hord.
  destruct Hb as (Hph & Hwg & Hclosed & Hexit).
  destruct Hl as (Hspawn & _ & _ & Hpool).
  destruct Hord as [Hsends _].
  destruct (Hexit 0%Z Hex) as [Habs | [_ Hzero]]; [discriminate Habs |].
  pose proof (walkerPhase_done_le _ _ _ Hph) as Hle.
  assert (Hend : ended (sink s) = 1) by (destruct (sink s); simpl in *; lia).
  assert (Halive : count alive (tasks s) = 0) by lia.
  assert (Hdone : count isWalkerDone tr = 1) by lia.
  pose proof (ended_SEnd _ Hend) as Hsink.
  destruct Hph as (Hsnd & [(_ & H & _) | [(_ & H & _) | (Hc & _ & Hw & Hr)]]);
    try lia.
  assert (Hwalker : walker s = ([], Ret true)).
  { destruct (walker s) as [es o]. cbn in *. subst es. rewrite Hsnd, Hr. reflexivity. }
  split; [exact Hc |]. split; [exact Hwalker |]. split; [exact Hsink |].
  split; [rewrite Hw, app_nil_r in Hsends; symmetry; exact Hsends |].
  split; [| split; [symmetry; exact Hspawn |]].
  - apply count_zero_Forall in Halive.
    eapply Forall_impl; [| exact Halive].
    intros t Ht. destruct t; try discriminate Ht. reflexivity.
  - intros Hbd. destruct (Hpool Hbd) as (_ & _ & Hsem & _).
    rewrite Hsem, Hsink. unfold inFlight.
    assert (count holding (tasks s) <= count alive (tasks s))
      by (apply count_le; intros t; destruct t; intros Ht; try discriminate Ht; reflexivity).
    simpl. lia.
Qed.

(** Once [flag.Parse()] has returned, the exit status is 0 or 1; it is
    1 for a usage error, a directory or file that cannot be created, an
    unreadable listing page, and the verbose-only missing href. *)
Lemma exit_status_zero_or_one
    (W : world) (cl : cmdline) (evs : list event) (c : Z) :
  mainRun W cl evs (Some c) -> c = 0%Z \/ c = 1%Z.
Proof.
  intros Hrun. remember (Some c) as code eqn:Hex.
  destruct Hrun as [es c' Hpre | es config fuel tr s Hpre Hpipe].
  - right. injection Hex as ->.
    destruct (mainPrelude_cases W cl)
      as [Hp | [(config & _ & _ & Hp) | (config & _ & _ & _ & [[_ Hp] | (err & _ & Hp)])]];
      rewrite Hp in Hpre; try discriminate Hpre.
    + rewrite Usage_events in Hpre. injection Hpre as _ <-. reflexivity.
    + injection Hpre as _ <-. reflexivity.
  - pose proof (wgBooks_run W config _ _ _ tr
                  (fetchAllImageUrls_exit_one W config fuel (url config)) Hpipe []
                  (wgBooks_init W config fuel (url config))) as Hb.
    destruct Hb as (_ & _ & _ & Hexit).
    destruct (Hexit c Hex) as [-> | [-> _]]; [right | left]; reflexivity.
Qed.

Lemma flag_Parse_cases (p : parsing) :
  (exists cl, p = Parsed cl /\ flag_Parse p = ([], Ret cl))
  \/ (exists text, p = Rejected text /\ flag_Parse p = ([Stderr text], Exit 2%Z))
  \/ (exists text, p = HelpAsked text /\ flag_Parse p = ([Stderr text], Exit 0%Z)).
Proof.
  destruct p as [cl | text | text].
  - left. exists cl. split; reflexivity.
  - right. left. exists text. split; reflexivity.
  - right. right. exists text. split; reflexivity.
Qed.

(** The prelude of [main] never exits with status 0. *)
Lemma mainPrelude_exit_one (W : world) (cl : cmdline) (es : list event) (c : Z) :
  mainPrelude W cl = (es, Exit c) -> c = 1%Z.
Proof.
  intros Hpre.
  destruct (mainPrelude_cases W cl)
    as [Hp | [(config & _ & _ & Hp) | (config & _ & _ & _ & [[_ Hp] | (err & _ & Hp)])]];
    rewrite Hp in Hpre; try discriminate Hpre.
  - rewrite Usage_events in Hpre. injection Hpre as _ <-. reflexivity.
  - injection Hpre as _ <-. reflexivity.
Qed.

(** X13: the program exits with status 0 in two situations only.  Either
    [flag.Parse()] was asked for help: then the usage text on standard
    error is all that has happened.  Or [main] has left [wg.Wait()]
    with all the work over: [urls] is closed and the walker has
    returned, the consumer has left its range and returned, every URL
    sent has been received, every task started has run to its end, and
    with a bounded pool every token is back. *)
Theorem exit_zero_after_help_or_all_work
    (W : world) (p : parsing) (evs : list event) :
  programRun W p evs (Some 0%Z) ->
  (exists text, p = HelpAsked text /\ evs = [Stderr text])
  \/ (exists cl es config fuel tr s,
        p = Parsed cl
        /\ mainPrelude W cl = (es, Ret config)
        /\ run W config (init (fetchAllImageUrls W config fuel (url config))) tr s
        /\ evs = (es ++ effectsOf tr)%list
        /\ exited s = Some 0%Z
        /\ closed s = true
        /\ walker s = ([], Ret true)
        /\ sink s = SEnd
        /\ received tr = sendsOf (fst (fetchAllImageUrls W config fuel (url config)))
        /\ Forall (fun t => t = TEnd) (tasks s)
        /\ length (tasks s) = count isSpawn tr
        /\ (bounded config = true -> sem s = 0)).
Proof.
  intros Hrun. remember (Some 0%Z) as code eqn:Hcode.
  destruct Hrun as [p es c Hstop | cl evs code _ Hmain].
  - injection Hcode as ->.
    destruct (flag_Parse_cases p)
      as [(cl & _ & Hp) | [(text & _ & Hp) | (text & -> & Hp)]];
      rewrite Hp in Hstop; try discriminate Hstop.
    left. exists text. injection Hstop as <-. split; reflexivity.
  - right. destruct Hmain as [es c Hpre | es config fuel tr s Hpre Hpipe].
    + injection Hcode as ->. apply mainPrelude_exit_one in Hpre. discriminate Hpre.
    + destruct (clean_exit_after_all_work W config fuel tr s Hpipe Hcode)
        as (Hc & Hw & Hk & Hr & Ht & Hl & Hs).
      exists cl, es, config, fuel, tr, s.
      repeat (split; [first [reflexivity | assumption] |]). exact Hs.
Qed.

Lemma site_programRun :
  programRun site (Parsed download2)
             (MkdirAll "out" 480 :: effectsOf siteTrace) (Some 0%Z).
Proof. apply program_parsed; [exact I | exact site_mainRun]. Qed.

Lemma exit_zero_after_help_or_all_work_witness :
  (exists text,
      Parsed download2 = HelpAsked text
      /\ (MkdirAll "out" 480 :: effectsOf siteTrace) = [Stderr text])
  \/ (exists cl es config fuel tr s,
        Parsed download2 = Parsed cl
        /\ mainPrelude site cl = (es, Ret config)
        /\ run site config (init (fetchAllImageUrls site config fuel (url config))) tr s
        /\ (MkdirAll "out" 480 :: effectsOf siteTrace) = (es ++ effectsOf tr)%list
        /\ exited s = Some 0%Z
        /\ closed s = true
        /\ walker s = ([], Ret true)
        /\ sink s = SEnd
        /\ received tr = sendsOf (fst (fetchAllImageUrls site config fuel (url config)))
        /\ Forall (fun t => t = TEnd) (tasks s)
        /\ length (tasks s) = count isSpawn tr
        /\ (bounded config = true -> sem s = 0)).
Proof.
  apply (exit_zero_after_help_or_all_work site (Parsed download2)
           (MkdirAll "out" 480 :: effectsOf siteTrace) site_programRun).
Defined.

(** X14: the exit status of the program is 0, 1 or 2.  It is 2 exactly
    when [flag.Parse()] rejects the command line (an undefined flag, a
    malformed value, a [-parallel] that is no [int]); a request for help
    gives 0; everything the program itself ends with is 0 or 1. *)
Theorem exit_status_of_program
    (W : world) (p : parsing) (evs : list event) (c : Z) :
  programRun W p evs (Some c) ->
  (c = 0%Z \/ c = 1%Z \/ c = 2%Z)
  /\ (c = 2%Z <-> exists text, p = Rejected text)
  /\ (forall text, p = HelpAsked text -> c = 0%Z)
  /\ (forall cl, p = Parsed cl -> c = 0%Z \/ c = 1%Z).
Proof.
  intros Hrun. remember (Some c) as code eqn:Hcode.
  destruct Hrun as [p es c' Hstop | cl evs code _ Hmain].
  - injection Hcode as ->.
    destruct (flag_Parse_cases p)
      as [(cl & _ & Hp) | [(text & -> & Hp) | (text & -> & Hp)]];
      rewrite Hp in Hstop; try discriminate Hstop; injection Hstop as _ <-.
    + split; [right; right; reflexivity |].
      split; [split; [intros _; exists text; reflexivity | reflexivity] |].
      split; [intros t H; discriminate H | intros cl H; discriminate H].
    + split; [left; reflexivity |].
      split; [split; [discriminate | intros [t H]; discriminate H] |].
      split; [reflexivity | intros cl H; discriminate H].
  - subst code.
    pose proof (exit_status_zero_or_one W cl evs c Hmain) as Hc.
    split; [tauto |].
    split; [split; [intros ->; destruct Hc as [Hc | Hc]; discriminate Hc
                   | intros [t H]; discriminate H] |].
    split; [intros t H; discriminate H | intros cl' _; exact Hc].
Qed.

Lemma exit_status_of_program_witness :
  (2%Z = 0%Z \/ 2%Z = 1%Z \/ 2%Z = 2%Z)
  /\ (2%Z = 2%Z <-> exists text, Rejected "flag provided but not defined: -bogus"
                                 = Rejected text)
  /\ (forall text, Rejected "flag provided but not defined: -bogus" = HelpAsked text ->
        2%Z = 0%Z)
  /\ (forall cl, Rejected "flag provided but not defined: -bogus" = Parsed cl ->
        2%Z = 0%Z \/ 2%Z = 1%Z).
Proof.
  apply (exit_status_of_program site
           (Rejected "flag provided but not defined: -bogus")
           [Stderr "flag provided but not defined: -bogus"] 2).
  apply program_stopped. reflexivity.
Defined.

(** ** Further properties: no deadlock *)

Lemma alive_task_or_none (ts : list task) :
  count alive ts = 0 \/ exists i t, nth_error ts i = Some t /\ alive t = true.
Proof.
  induction ts as [| t ts IH]; [left; reflexivity |].
  destruct (alive t) eqn:Ht.
  - right. exists 0, t. split; [reflexivity | exact Ht].
  - destruct IH as [IH | (i & t' & Hi & Ht')].
    + left. rewrite count_cons, Ht, IH. reflexivity.
    + right. exists (S i), t'. split; assumption.
Qed.

(** A task that has not ended can always take its next step, given the
    token and the wait-group count the books promise it. *)
Lemma task_can_step (W : world) (config : conf) (w : M bool) (cl : bool)
    (sk : consumer) (ts : list task) (sm g : nat) (i : nat) (t : task) :
  nth_error ts i = Some t ->
  alive t = true ->
  (bounded config = true -> 1 <= count holding ts -> 1 <= sm) ->
  1 <= g ->
  exists a s', step W config (St w cl sk ts sm g None) a s'.
Proof.
  intros Hi Ht Hsem Hg. destruct t as [u | img | | |]; try discriminate Ht.
  - destruct (NewDocument W u) as [doc | err] eqn:Hdoc.
    + pose proof (getActualImageUrl_ok W u doc Hdoc) as Hget.
      destruct (String.eqb (fold_left pickImage
                  (FindDoc doc [tag "div"; tag "table"]) "") "") eqn:He;
        eexists; eexists;
        [eapply step_resolve_empty | eapply step_resolve_some]; eassumption.
    + pose proof (getActualImageUrl_err W u err Hdoc) as Hget.
      eexists. eexists. eapply step_resolve_empty; first [eassumption | reflexivity].
  - destruct (downloadImage W config img) as [es [[] | c]] eqn:Hd;
      eexists; eexists;
      [eapply step_download | eapply step_download_fatal]; eassumption.
  - destruct (bounded config) eqn:Hb.
    + pose proof (Hsem eq_refl (count_pos holding i TRelease ts Hi eq_refl)) as Hone.
      destruct sm as [| sm]; [lia |].
      eexists. eexists. eapply step_release; eassumption.
    + eexists. eexists. eapply step_no_release; eassumption.
  - destruct g as [| g]; [lia |].
    eexists. eexists. eapply step_task_done; eassumption.
Qed.

(** X15: the pipeline never deadlocks.  For a walk that leaves its loop
    or ends the process, in every state of every execution in which the
    process has not exited some goroutine can take a step: the walker,
    the consumer, a task, or [main] leaving [wg.Wait()]. *)
Theorem pipeline_never_stuck
    (W : world) (config : conf) (fuel : nat) (tr : list action) (s : state) :
  snd (fetchAllImageUrls W config fuel (url config)) <> Ret false ->
  run W config (init (fetchAllImageUrls W config fuel (url config))) tr s ->
  exited s = None ->
  exists a s', step W config s a s'.
Proof.
  intros Hleft Hrun Hex.
  pose proof (wgBooks_run W config _ _ _ tr
                (fetchAllImageUrls_exit_one W config fuel (url config)) Hrun []
                (wgBooks_init W config fuel (url config))) as Hb.
  pose proof (ledger_run W config _ _ _ Hrun [] (ledger_init config _)) as Hl.
  simpl in Hb, Hl.
  destruct Hb as (Hph & Hwg & Hclosed & _).
  destruct Hl as (_ & _ & _ & Hpool).
  pose proof (walkerPhase_done_le _ _ _ Hph) as Hle.
  destruct s as [w cl sk ts sm g ex].
  unfold walkerPhase in Hph.
  cbn [walker closed sink tasks sem wg exited] in *. subst ex.
  unfold inFlight in Hpool. cbn [tasks sink sem] in Hpool.
  destruct (alive_task_or_none ts) as [Hnone | (i & t & Hi & Ht)].
  2: { (* some task is still running *)
    apply (task_can_step W config w cl sk ts sm g i t Hi Ht).
    - intros Hbd Hone. destruct (Hpool Hbd) as (_ & _ & Hsem & _). lia.
    - pose proof (count_pos alive i t ts Hi Ht).
      assert (ended sk <= 1) by (destruct sk; simpl; lia). lia. }
  (* no task is running *)
  assert (Hidle : count holding ts = 0).
  { assert (count holding ts <= count alive ts)
      by (apply count_le; intros x; destruct x; intros Hx; try discriminate Hx; reflexivity).
    lia. }
  destruct sk as [| u | sel | val rest | val rest | |];
    cbn [ended pendingAdd rangeOver] in *.
  - (* the consumer waits in its range *)
    destruct cl.
    { eexists. eexists. apply step_range_end. }
    destruct Hph as (Hsnd & [(_ & _ & pre & Hpre & Hshape) | [(Hc & _) | (Hc & _)]]);
      try discriminate Hc.
    destruct w as [es o]. cbn [fst snd] in *.
    assert (Hhead : forall e rest, es = e :: rest -> plain e \/ e = CloseChan).
    { intros e rest ->. destruct Hshape as [[Hw _] | [Hw _]].
      - destruct pre as [| p pre]; cbn [app] in Hw.
        + injection Hw as -> _. right. reflexivity.
        + injection Hw as -> _. left. apply (Forall_inv Hpre).
      - subst pre. left. apply (Forall_inv Hpre). }
    destruct es as [| e es].
    + (* nothing left: the walker ended the process *)
      destruct Hshape as [[Hw _] | [_ Hr]]; [destruct pre; discriminate Hw |].
      destruct o as [[|] | c]; try congruence.
      eexists. eexists. apply step_walker_fatal.
    + destruct (Hhead e es eq_refl) as [He | ->].
      * destruct e; try destruct He.
        -- eexists. eexists. apply step_walk. reflexivity.
        -- eexists. eexists. apply step_walk. reflexivity.
        -- eexists. eexists. apply step_handoff.
      * eexists. eexists. apply step_close.
  - (* a URL in hand *)
    destruct (dryrun config) eqn:Hdry.
    + eexists. eexists. apply step_print. exact Hdry.
    + destruct (openItem_cases W u) as [[err He] | [sel He]]; eexists; eexists;
        [eapply step_open_err | eapply step_open_ok]; eassumption.
  - (* between two anchors *)
    destruct sel as [| x sel]; [eexists; eexists; apply step_each_end |].
    destruct (wanted_cases config x) as [[es He] | (val & He & _)].
    + eexists. eexists. eapply step_pass. exact He.
    + destruct (bounded config) eqn:Hbd.
      * destruct (Hpool eq_refl) as (_ & _ & Hsem & _).
        pose proof (proj1 (bounded_iff config) Hbd) as Hpos.
        eexists. eexists. eapply step_acquire; [exact He | exact Hbd |].
        unfold capacity. simpl in Hsem. lia.
      * eexists. eexists. eapply step_unbounded; eassumption.
  - eexists. eexists. apply step_add.
  - eexists. eexists. apply step_go.
  - (* the consumer's deferred wg.Done() *)
    destruct g as [| g]; [lia |]. eexists. eexists. apply step_sink_done.
  - (* the consumer is done *)
    pose proof (Hclosed eq_refl) as Hcl. subst cl.
    destruct Hph as (Hsnd & [(Hc & _) | [(_ & Hn & Hw & _) | (_ & Hn & _)]]);
      [discriminate Hc | |].
    + destruct w as [es o]. cbn [fst] in Hw. subst es.
      destruct g as [| g]; [lia |]. eexists. eexists. apply step_walker_done.
    + assert (g = 0) by lia. subst g. eexists. eexists. apply step_main_exit.
Qed.

Lemma pipeline_never_stuck_witness :
  exists a s', step gallery quiet galleryEnd a s'.
Proof.
  apply (pipeline_never_stuck gallery quiet 1 galleryTrace galleryEnd).
  - discriminate.
  - exact gallery_run.
  - reflexivity.
Defined.

(** ** Further properties: a fatal walk, and standard output *)

(** X16: when the walk ends in [log.Fatal] (an unreadable listing page,
    or the verbose-only missing href), [urls] is never closed, the
    consumer never leaves its range, and the process never exits with
    status 0: no execution can report success. *)
Theorem fatal_walk_never_reports_success
    (W : world) (config : conf) (fuel : nat) (c : Z) (tr : list action) (s : state) :
  snd (fetchAllImageUrls W config fuel (url config)) = Exit c ->
  run W config (init (fetchAllImageUrls W config fuel (url config))) tr s ->
  c = 1%Z
  /\ closed s = false
  /\ rangeOver (sink s) = false
  /\ exited s <> Some 0%Z.
Proof.
  intros Hfatal Hrun.
  pose proof (wgBooks_run W config _ _ _ tr
                (fetchAllImageUrls_exit_one W config fuel (url config)) Hrun []
                (wgBooks_init W config fuel (url config))) as Hb.
  simpl in Hb. destruct Hb as (Hph & Hwg & Hclosed & Hexit).
  destruct Hph as (_ & [(Hc & Hn & _) | [(_ & _ & _ & Hr) | (_ & _ & _ & Hr)]]);
    try congruence.
  split; [apply (fetchAllImageUrls_exit_one W config fuel (url config)), Hfatal |].
  split; [exact Hc |].
  assert (Hrange : rangeOver (sink s) = false).
  { destruct (rangeOver (sink s)); [| reflexivity].
    specialize (Hclosed eq_refl). congruence. }
  split; [exact Hrange |].
  intros Hex. destruct (Hexit 0%Z Hex) as [Habs | [_ Hzero]]; [discriminate Habs |].
  destruct (sink s); simpl in *; try discriminate Hrange; lia.
Qed.

Lemma offline_run :
  run offline quiet (init (fetchAllImageUrls offline quiet 1 (url quiet)))
      [Walk (Fetch "seed");
       Walk (Log "Error opening document with single image: no route to host");
       WalkerFatal 1]
      (St ([], Exit 1%Z) false SRange [] 0 2 (Some 1%Z)).
Proof.
  unfold init.
  change (fetchAllImageUrls offline quiet 1 (url quiet))
    with ([Fetch "seed";
           Log "Error opening document with single image: no route to host"],
          @Exit bool 1%Z).
  repeat fire. apply run_nil.
Qed.

Lemma fatal_walk_never_reports_success_witness :
  1%Z = 1%Z
  /\ closed (St ([], Exit 1%Z) false SRange [] 0 2 (Some 1%Z)) = false
  /\ rangeOver (sink (St ([], Exit 1%Z) false SRange [] 0 2 (Some 1%Z))) = false
  /\ exited (St ([], Exit 1%Z) false SRange [] 0 2 (Some 1%Z)) <> Some 0%Z.
Proof.
  apply (fatal_walk_never_reports_success offline quiet 1 1 _ _ eq_refl offline_run).
Defined.

Lemma wanted_silent (config : conf) (x : loc) : stdoutOf (fst (wanted config x)) = [].
Proof.
  unfold wanted. destruct (Attr [x] "href") as [val |].
  - destruct (negb (Str.Contains val "size=o")); reflexivity.
  - destruct (verbose config); reflexivity.
Qed.

Lemma getActualImageUrl_silent (W : world) (u : string) :
  stdoutOf (fst (getActualImageUrl W u)) = [].
Proof.
  destruct (NewDocument W u) as [doc | err] eqn:Hdoc.
  - rewrite (getActualImageUrl_ok W u doc Hdoc). reflexivity.
  - rewrite (getActualImageUrl_err W u err Hdoc). reflexivity.
Qed.

Lemma downloadImage_silent (W : world) (config : conf) (u : string) :
  stdoutOf (fst (downloadImage W config u)) = [].
Proof.
  unfold downloadImage.
  destruct (os_Create W (path_Join W (directory config) (path_Base W u)));
    [destruct (verbose config); reflexivity |].
  destruct (http_Get W u) as [body | gerr];
    [destruct (io_Copy W (path_Join W (directory config) (path_Base W u)) body);
     destruct (out_Sync W (path_Join W (directory config) (path_Base W u))) |];
    destruct (verbose config); reflexivity.
Qed.

Lemma openItem_silent (W : world) (u : string) : stdoutOf (fst (openItem W u)) = [].
Proof.
  destruct (openItem_cases W u) as [[err He] | [sel He]]; rewrite He; reflexivity.
Qed.

Lemma silent_step (W : world) (config : conf) (wprog : M bool)
    (tr : list action) (s s' : state) (a : action) :
  dryrun config = false ->
  walkerPhase wprog tr s ->
  stdoutOf (effectsOf tr) = [] ->
  step W config s a s' ->
  stdoutOf (effectsOf (tr ++ [a])) = [].
Proof.
  intros Hdry (_ & Hph) Hout Hstep.
  rewrite effectsOf_app, stdoutOf_app, Hout. cbn [app effectsOf flat_map].
  rewrite app_nil_r.
  destruct Hstep; cbn [effects walker fst] in *; try reflexivity; try congruence;
    try match goal with
        | H : ?f = (?es, _) |- stdoutOf ?es = [] =>
            replace es with (fst f) by (rewrite H; reflexivity)
        end;
    try solve [apply wanted_silent | apply openItem_silent
              | apply getActualImageUrl_silent | apply downloadImage_silent].
  (* an event of the walker *)
  destruct Hph as [(_ & _ & pre & Hpre & Hshape) | [(_ & _ & Hw & _) | (_ & _ & Hw & _)]];
    [| injection Hw as -> _; discriminate | discriminate Hw].
  assert (He : plain e).
  { destruct Hshape as [[Hw _] | [Hw _]].
    - destruct pre as [| p pre]; cbn [app] in Hw; injection Hw as -> _;
        [discriminate | apply (Forall_inv Hpre)].
    - subst pre. apply (Forall_inv Hpre). }
  destruct e; try destruct He; reflexivity.
Qed.

Lemma silent_run (W : world) (config : conf) (wprog : M bool)
    (s s' : state) (tr : list action) :
  dryrun config = false ->
  (forall c, snd wprog = Exit c -> c = 1%Z) ->
  run W config s tr s' ->
  forall pre,
    wgBooks wprog pre s -> stdoutOf (effectsOf pre) = [] ->
    stdoutOf (effectsOf (pre ++ tr)) = [].
Proof.
  intros Hdry Hcode. induction 1 as [s | s a s1 tr s2 Hstep _ IH]; intros pre Hb Hout.
  - rewrite app_nil_r. exact Hout.
  - replace (pre ++ a :: tr)%list with ((pre ++ [a]) ++ tr)%list
      by (rewrite <- app_assoc; reflexivity).
    apply IH.
    + eapply wgBooks_step; eassumption.
    + eapply silent_step; try eassumption. apply Hb.
Qed.

(** X17: without [-dry-run] the program writes nothing to standard
    output: whatever it reports goes to the log. *)
Theorem download_mode_prints_nothing
    (W : world) (config : conf) (fuel : nat) (tr : list action) (s : state) :
  dryrun config = false ->
  run W config (init (fetchAllImageUrls W config fuel (url config))) tr s ->
  stdoutOf (effectsOf tr) = [].
Proof.
  intros Hdry Hrun.
  apply (silent_run W config _ _ _ tr Hdry
           (fetchAllImageUrls_exit_one W config fuel (url config)) Hrun []
           (wgBooks_init W config fuel (url config)) eq_refl).
Qed.

Lemma download_mode_prints_nothing_witness : stdoutOf (effectsOf siteTrace) = [].
Proof.
  apply (download_mode_prints_nothing site archive 1 siteTrace siteEnd eq_refl site_run).
Defined.
